(** * camera-alignment-table: the moire table generator of [src/index.js]

    A shallow embedding of the pattern-generation code (frame layout,
    pixel-perfect line width, ring targets, line moire, corner geometry and
    their composition in [drawTable]) and the properties the specification
    states about it.

    Numbers.  An ECMAScript Number is modelled by [num]: a real number or
    one of the three special values [+Infinity], [-Infinity], [NaN].  The
    arithmetic follows the ECMAScript case analysis on special values
    (division by zero, [0 * Infinity], comparisons with [NaN], ...) and is
    exact on finite values: binary64 rounding and overflow are not
    modelled.  The model has one zero, [+0]: [-0] is no value of [num], and
    no statement below is about an input that is [-0].  Where the sign of a
    zero rect.height would change what the code does, the statement asks
    for a height other than zero.  Where the code compares a computed
    quantity with a bound, a statement about the outcome is made in the
    terms of the quantity as the code computes it, or where the exact
    value is at a distance from the bound that rounding does not bridge.

    Drawing surface.  The 2D context is a record of the attributes the code
    touches together with a display list: the sequence of paint operations
    applied since the surface was last cleared entirely.

    Page.  Of the document the code reads the size of the viewport and
    writes the size of the canvas and the inline [display] of the About
    element; [canvasResize], [toggleAbout] and the click handler of
    [hideAbout] are functions on a record of these.  [save] and [init],
    which only wire the page to these functions, are left out.

    Loops.  A [while] loop is the iteration of its turn under a bound on
    the number of turns ([fuel]); running out of it is the result
    [Timeout].  The theorems give bounds under which this never happens. *)

From Stdlib Require Import Reals Lra Lia ZArith List String Bool.
From Stdlib Require Import Zfloor DecimalString.
Import ListNotations.

Local Open Scope string_scope.
Local Open Scope list_scope.
Local Open Scope R_scope.

(** ** Decidable tests on real numbers *)

Definition R_ltb (a b : R) : bool := if Rlt_dec a b then true else false.
Definition R_leb (a b : R) : bool := if Rle_dec a b then true else false.
Definition R_eqb (a b : R) : bool := if Req_dec_T a b then true else false.

(** ** ECMAScript numbers *)

Inductive num : Type :=
| Fin (r : R)
| PInf
| NInf
| NaN.

Definition num_of_Z (z : Z) : num := Fin (IZR z).

(** Unary minus. *)
Definition nneg (a : num) : num :=
  match a with
  | Fin r => Fin (- r)
  | PInf => NInf
  | NInf => PInf
  | NaN => NaN
  end.

(** [a + b] *)
Definition nadd (a b : num) : num :=
  match a, b with
  | NaN, _ | _, NaN => NaN
  | Fin x, Fin y => Fin (x + y)
  | PInf, NInf | NInf, PInf => NaN
  | PInf, _ | _, PInf => PInf
  | NInf, _ | _, NInf => NInf
  end.

(** [a - b] *)
Definition nsub (a b : num) : num := nadd a (nneg b).

(** The infinity with the sign of the finite, non-zero [r]. *)
Definition inf_signed (r : R) : num := if R_ltb 0 r then PInf else NInf.

(** [a * b] *)
Definition nmul (a b : num) : num :=
  match a, b with
  | NaN, _ | _, NaN => NaN
  | Fin x, Fin y => Fin (x * y)
  | Fin x, PInf | PInf, Fin x => if R_eqb x 0 then NaN else inf_signed x
  | Fin x, NInf | NInf, Fin x => if R_eqb x 0 then NaN else inf_signed (- x)
  | PInf, PInf | NInf, NInf => PInf
  | PInf, NInf | NInf, PInf => NInf
  end.

(** [a / b].  The zero of the model is [+0], so a real divided by zero
    has the sign of the dividend; the code divides by
    [floor (rect.height / 50)], [startR], [outR / 5] and [rect.height / 2],
    which are [-0] only when [rect.height] or [outR] is. *)
Definition ndiv (a b : num) : num :=
  match a, b with
  | NaN, _ | _, NaN => NaN
  | Fin x, Fin y =>
      if R_eqb y 0 then (if R_eqb x 0 then NaN else inf_signed x)
      else Fin (x / y)
  | Fin _, PInf | Fin _, NInf => Fin 0
  | PInf, Fin y => if R_leb 0 y then PInf else NInf
  | NInf, Fin y => if R_leb 0 y then NInf else PInf
  | _, _ => NaN
  end.

(** Integer part towards zero. *)
Definition Ztrunc (x : R) : Z := if R_leb 0 x then Zfloor x else Zceil x.

(** [a % b]: the remainder has the sign of the dividend. *)
Definition nrem (a b : num) : num :=
  match a, b with
  | Fin x, Fin y =>
      if R_eqb y 0 then NaN else Fin (x - y * IZR (Ztrunc (x / y)))
  | Fin x, PInf | Fin x, NInf => Fin x
  | _, _ => NaN
  end.

(** [a < b], [a <= b], [a > b], [a == b]: false as soon as one side is
    [NaN]. *)
Definition nlt (a b : num) : bool :=
  match a, b with
  | NaN, _ | _, NaN => false
  | Fin x, Fin y => R_ltb x y
  | NInf, NInf | PInf, _ => false
  | NInf, _ | Fin _, PInf => true
  | Fin _, NInf => false
  end.

Definition nle (a b : num) : bool :=
  match a, b with
  | NaN, _ | _, NaN => false
  | Fin x, Fin y => R_leb x y
  | NInf, _ | _, PInf => true
  | PInf, _ | Fin _, NInf => false
  end.

Definition ngt (a b : num) : bool := nlt b a.

Definition neq (a b : num) : bool :=
  match a, b with
  | Fin x, Fin y => R_eqb x y
  | PInf, PInf | NInf, NInf => true
  | _, _ => false
  end.

(** ToBoolean on a number: [0] and [NaN] are falsy. *)
Definition truthy (a : num) : bool :=
  match a with
  | Fin r => negb (R_eqb r 0)
  | NaN => false
  | PInf | NInf => true
  end.

(** ** The [Math] object *)

Definition Math_PI : num := Fin PI.

Definition Math_floor (a : num) : num :=
  match a with
  | Fin r => Fin (IZR (Zfloor r))
  | other => other
  end.

Definition Math_sin (a : num) : num :=
  match a with
  | Fin r => Fin (sin r)
  | _ => NaN
  end.

Definition Math_asin (a : num) : num :=
  match a with
  | Fin r => if R_leb (-1) r && R_leb r 1 then Fin (asin r) else NaN
  | _ => NaN
  end.

(** Is the real [r] an integer, an odd integer. *)
Definition R_is_int (r : R) : bool := R_eqb (IZR (Zfloor r)) r.
Definition R_is_odd (r : R) : bool := R_is_int r && Z.odd (Zfloor r).

(** [Math.pow base exponent], after Number::exponentiate: its table of
    special cases, and for a positive base and a finite exponent other than
    zero the exact power, of which [Math.pow] returns an approximation. *)
Definition Math_pow (base exponent : num) : num :=
  match exponent with
  | NaN => NaN
  | Fin e =>
      if R_eqb e 0 then Fin 1 else
      match base with
      | NaN => NaN
      | PInf => if R_ltb 0 e then PInf else Fin 0
      | NInf => if R_ltb 0 e
                then (if R_is_odd e then NInf else PInf)
                else Fin 0
      | Fin b =>
          if R_eqb b 0 then (if R_ltb 0 e then Fin 0 else PInf)
          else if R_ltb 0 b then Fin (Rpower b e)
          else if R_is_int e then Fin (powerRZ b (Zfloor e))
          else NaN
      end
  | PInf =>
      match base with
      | NaN => NaN
      | PInf | NInf => PInf
      | Fin b =>
          if R_ltb 1 (Rabs b) then PInf
          else if R_eqb (Rabs b) 1 then NaN else Fin 0
      end
  | NInf =>
      match base with
      | NaN => NaN
      | PInf | NInf => Fin 0
      | Fin b =>
          if R_ltb 1 (Rabs b) then Fin 0
          else if R_eqb (Rabs b) 1 then NaN
          else PInf
      end
  end.

Definition is_finite (a : num) : bool :=
  match a with
  | Fin _ => true
  | _ => false
  end.

(** ** [src/rect.js] *)

Record Rect : Type := mkRect
  { topLeftX : num;
    topLeftY : num;
    width : num;
    height : num }.

(** ** The 2D drawing context

    Only what [src/index.js] uses of the Canvas API.  Behaviour on special
    values is the API's: [fillRect], [clearRect], [moveTo] and [lineTo]
    return without effect when an argument is not finite;
    [createRadialGradient] throws on a non-finite argument (TypeError) and
    on a negative radius (IndexSizeError); the [lineWidth] setter ignores
    values that are not finite and positive. *)

Record gradient : Type := mkGradient
  { g_x0 : num; g_y0 : num; g_r0 : num;
    g_x1 : num; g_y1 : num; g_r1 : num;
    g_stops : list (num * string) }.

Inductive style : Type :=
| Color (css : string)
| Gradient (g : gradient).

Inductive path_cmd : Type :=
| MoveTo (x y : num)
| LineTo (x y : num).

(** One entry of the display list. *)
Inductive paint : Type :=
| ClearRect (x y w h : num)
| FillRect (fill : style) (x y w h : num)
| Stroke (stroke : style) (line_width : num) (dash : list num)
         (segments : list path_cmd).

(** [CanvasRenderingContext2D]: the size of its canvas, the attributes the
    code sets, the current path and the display list. *)
Record Context : Type := mkContext
  { canvas_width : Z;
    canvas_height : Z;
    fillStyle : style;
    strokeStyle : style;
    lineWidth : num;
    lineDash : list num;
    path : list path_cmd;
    surface : list paint }.

Definition set_fillStyle (s : style) (c : Context) : Context :=
  mkContext (canvas_width c) (canvas_height c) s (strokeStyle c)
            (lineWidth c) (lineDash c) (path c) (surface c).

Definition set_strokeStyle (s : style) (c : Context) : Context :=
  mkContext (canvas_width c) (canvas_height c) (fillStyle c) s
            (lineWidth c) (lineDash c) (path c) (surface c).

Definition set_lineWidth (v : num) (c : Context) : Context :=
  if is_finite v && nlt (Fin 0) v
  then mkContext (canvas_width c) (canvas_height c) (fillStyle c)
                 (strokeStyle c) v (lineDash c) (path c) (surface c)
  else c.

Definition setLineDash (segments : list num) (c : Context) : Context :=
  if forallb (fun v => is_finite v && nle (Fin 0) v) segments
  then mkContext (canvas_width c) (canvas_height c) (fillStyle c)
                 (strokeStyle c) (lineWidth c)
                 (if Nat.even (List.length segments) then segments
                  else segments ++ segments)
                 (path c) (surface c)
  else c.

Definition set_path (p : list path_cmd) (c : Context) : Context :=
  mkContext (canvas_width c) (canvas_height c) (fillStyle c) (strokeStyle c)
            (lineWidth c) (lineDash c) p (surface c).

Definition set_surface (l : list paint) (c : Context) : Context :=
  mkContext (canvas_width c) (canvas_height c) (fillStyle c) (strokeStyle c)
            (lineWidth c) (lineDash c) (path c) l.

Definition emit (p : paint) (c : Context) : Context :=
  set_surface (surface c ++ [p]) c.

Definition beginPath (c : Context) : Context := set_path [] c.

Definition moveTo (x y : num) (c : Context) : Context :=
  if is_finite x && is_finite y then set_path (path c ++ [MoveTo x y]) c
  else c.

Definition lineTo (x y : num) (c : Context) : Context :=
  if is_finite x && is_finite y then set_path (path c ++ [LineTo x y]) c
  else c.

Definition stroke (c : Context) : Context :=
  emit (Stroke (strokeStyle c) (lineWidth c) (lineDash c) (path c)) c.

Definition all_finite (x y w h : num) : bool :=
  is_finite x && is_finite y && is_finite w && is_finite h.

Definition fillRect (x y w h : num) (c : Context) : Context :=
  if all_finite x y w h then emit (FillRect (fillStyle c) x y w h) c else c.

(** Does the rectangle cover the whole bitmap? *)
Definition covers_canvas (x y w h : num) (c : Context) : bool :=
  nle x (Fin 0) && nle y (Fin 0)
  && nle (num_of_Z (canvas_width c)) (nadd x w)
  && nle (num_of_Z (canvas_height c)) (nadd y h).

(** Clearing the whole bitmap leaves nothing of what was painted before;
    a partial clear is one more entry of the display list. *)
Definition clearRect (x y w h : num) (c : Context) : Context :=
  if all_finite x y w h
  then if covers_canvas x y w h c then set_surface [] c
       else emit (ClearRect x y w h) c
  else c.

(** The exceptions [createRadialGradient] throws. *)
Inductive exn : Type :=
| TypeError
| IndexSizeError.

Definition createRadialGradient (x0 y0 r0 x1 y1 r1 : num) : exn + gradient :=
  if negb (is_finite x0 && is_finite y0 && is_finite r0
           && is_finite x1 && is_finite y1 && is_finite r1)
  then inl TypeError
  else if nlt r0 (Fin 0) || nlt r1 (Fin 0) then inl IndexSizeError
  else inr (mkGradient x0 y0 r0 x1 y1 r1 []).

(** The offsets passed by the code are literals within [0, 1] and its
    colours are valid CSS colours, so the call only records the stop. *)
Definition addColorStop (offset : num) (color : string) (g : gradient)
  : gradient :=
  mkGradient (g_x0 g) (g_y0 g) (g_r0 g) (g_x1 g) (g_y1 g) (g_r1 g)
             (g_stops g ++ [(offset, color)]).

(** ** Control: results of a call and of one turn of a loop *)

(** How a call ends: it returns, it throws, or the fuel ran out. *)
Inductive outcome (A : Type) : Type :=
| Done (a : A)
| Throw (e : exn)
| Timeout.
Arguments Done {A} a.
Arguments Throw {A} e.
Arguments Timeout {A}.

Definition bind {A B : Type} (m : outcome A) (k : A -> outcome B) : outcome B :=
  match m with
  | Done a => k a
  | Throw e => Throw e
  | Timeout => Timeout
  end.

Notation "x <- m ;; k" := (bind m (fun x => k))
  (at level 61, m at next level, right associativity).

(** How a turn ends: the loop goes on, the loop is left, or an exception
    escapes. *)
Inductive flow (S : Type) : Type :=
| Next (s : S)
| Stop (s : S)
| Raise (e : exn).
Arguments Next {S} s.
Arguments Stop {S} s.
Arguments Raise {S} e.

(** A [while] loop: [body] tests the loop condition and runs one turn;
    [fuel] bounds the number of turns. *)
Fixpoint iterate {S : Type} (fuel : nat) (body : S -> flow S) (s : S)
  : outcome S :=
  match fuel with
  | O => Timeout
  | Datatypes.S n =>
      match body s with
      | Next s' => iterate n body s'
      | Stop s' => Done s'
      | Raise e => Throw e
      end
  end.

(** ** [src/index.js]: the pattern-generation functions

    The module-level [ctx] is threaded explicitly; [console.log] calls are
    left out. *)

(** Lines 82-84: [value % 2 ? 3 : 4]. *)
Definition getPPLineWidth (value : num) : num :=
  if truthy (nrem value (Fin 2)) then Fin 3 else Fin 4.

(** Lines 94-101. *)
Definition drawLine (fromX fromY toX toY : num) (c : Context) : Context :=
  let c := set_strokeStyle (Color "#000") c in
  let c := setLineDash [] c in
  let c := beginPath c in
  let c := moveTo fromX fromY c in
  let c := lineTo toX toY c in
  stroke c.

(** Lines 111-114. *)
Definition generateRingGradient (x y inR outR : num) : exn + gradient :=
  createRadialGradient x y inR x y outR.

(** *** [drawTargetMoire], lines 124-149 *)

(** The variables the [while] loop updates. *)
Record ring_state : Type := mkRing
  { curR : num;
    step : Z;
    ring_ctx : Context }.

(** [startR * Math.pow(q, step - 1)] *)
Definition prgValue_at (startR q : num) (step : Z) : num :=
  nmul startR (Math_pow q (nsub (num_of_Z step) (Fin 1))).

(** Lines 138-143. *)
Definition ring_stops (grd : gradient) : gradient :=
  let grd := addColorStop (Fin 0) "#fff0" grd in
  let grd := addColorStop (Fin 0.1) "#fff" grd in
  let grd := addColorStop (Fin 0.45) "#000" grd in
  let grd := addColorStop (Fin 0.55) "#000" grd in
  let grd := addColorStop (Fin 0.9) "#fff" grd in
  addColorStop (Fin 1) "#fff0" grd.

(** Lines 132-148, one turn: the loop condition, then the body.  [return]
    and [break] both end the function, nothing follows the loop. *)
Definition ring_turn (x y outR startR q : num) (rect : Rect) (s : ring_state)
  : flow ring_state :=
  if negb (nle (curR s) outR) then Stop s else
  let prgValue := prgValue_at startR q (step s) in
  if ngt (nadd (curR s) prgValue) outR then Stop s
  else if nle prgValue (Fin 1) then Stop s
  else if nlt (curR s) (Fin 5) then Stop s
  else
    match generateRingGradient x y (nsub (curR s) (Fin 5))
                               (nadd (curR s) prgValue) with
    | inl e => Raise e
    | inr grd =>
        let grd := ring_stops grd in
        let c := set_fillStyle (Gradient grd) (ring_ctx s) in
        let c := fillRect (topLeftX rect) (topLeftY rect)
                          (width rect) (height rect) c in
        Next (mkRing (nadd (curR s) prgValue) (step s + 1) c)
    end.

(** Lines 125-128. *)
Definition ring_startR (outR : num) (rect : Rect) : num :=
  let startR := Math_floor (ndiv (height rect) (Fin 50)) in
  if nlt (ndiv outR startR) (Fin 20) then ndiv outR (Fin 10) else startR.

(** Line 130. *)
Definition ring_q (outR startR : num) : num :=
  Math_pow (ndiv (Fin 1) startR) (ndiv (Fin 1) (ndiv outR (Fin 5))).

Definition drawTargetMoire (fuel : nat) (x y outR : num) (rect : Rect)
  (c : Context) : outcome Context :=
  let startR := ring_startR outR rect in
  let curR := startR in
  let q := ring_q outR startR in
  s <- iterate fuel (ring_turn x y outR startR q rect) (mkRing curR 1 c) ;;
  Done (ring_ctx s).

(** *** [drawChessMoire], lines 157-172 *)

(** The variables the [while] loop updates. *)
Record chess_state : Type := mkChess
  { lineY : num;
    startOffset : num;
    chess_ctx : Context }.

(** Lines 164-171, one turn.  The last statement assigns, to
    [startOffset], 0 when it equals [cellSize] and [cellSize] otherwise. *)
Definition chess_turn (cellSize : num) (rect : Rect) (s : chess_state)
  : flow chess_state :=
  if negb (nle (lineY s) (height rect)) then Stop s else
  let c := beginPath (chess_ctx s) in
  let c := moveTo (nadd (topLeftX rect) (startOffset s)) (lineY s) c in
  let c := lineTo (nadd (topLeftX rect) (width rect)) (lineY s) c in
  let c := stroke c in
  Next (mkChess (nadd (lineY s) cellSize)
                (if neq (startOffset s) cellSize then Fin 0 else cellSize)
                c).

Definition drawChessMoire (fuel : nat) (c : Context) (rect : Rect)
  : outcome Context :=
  let c := set_strokeStyle (Color "#000") c in
  let cellSize := nmul (getPPLineWidth (height rect)) (Fin 2) in
  let c := set_lineWidth cellSize c in
  let c := setLineDash [cellSize; cellSize] c in
  let lineY := ndiv cellSize (Fin 2) in
  let startOffset := Fin 0 in
  s <- iterate fuel (chess_turn cellSize rect) (mkChess lineY startOffset c) ;;
  Done (chess_ctx s).

(** Lines 174-177. *)
Definition drawRect (fill : style) (rect : Rect) (c : Context) : Context :=
  let c := set_fillStyle fill c in
  fillRect (topLeftX rect) (topLeftY rect) (width rect) (height rect) c.

(** Lines 198-203. *)
Definition getCornerTargetSize (rect : Rect) : num :=
  let a := ndiv (width rect) (Fin 2) in
  let b := ndiv (height rect) (Fin 2) in
  let y := nsub (ndiv Math_PI (Fin 4)) (Math_asin (ndiv (nneg (nsub b a)) b)) in
  nsub b (nmul b (Math_sin y)).

(** *** [drawTable], lines 208-260 *)

(** Line 227. *)
Definition cornerTargetRad (frameRect : Rect) : num :=
  ndiv (getCornerTargetSize frameRect) (Fin 2).

(** Lines 216-220: the common 4:3 frame. *)
Definition frameLayout (canvasWidth canvasHeight : num) : Rect :=
  let frameHeight := canvasHeight in
  let frameWidth := Math_floor (ndiv (nmul frameHeight (Fin 4)) (Fin 3)) in
  let borderWidth := Math_floor (ndiv (nsub canvasWidth frameWidth) (Fin 2)) in
  mkRect borderWidth (Fin 0) frameWidth canvasHeight.

(** The arguments of one [drawTargetMoire] call. *)
Record target_call : Type := mkCall
  { call_x : num;
    call_y : num;
    call_outR : num;
    call_rect : Rect }.

(** Lines 225-237: the five [drawTargetMoire] calls, in order. *)
Definition targetCalls (frameRect : Rect) : list target_call :=
  let cornerTargetRad := cornerTargetRad frameRect in
  [ mkCall (nadd (topLeftX frameRect) (ndiv (width frameRect) (Fin 2)))
           (ndiv (height frameRect) (Fin 2))
           (ndiv (height frameRect) (Fin 2))
           frameRect;
    mkCall (nadd (topLeftX frameRect) cornerTargetRad)
           (nadd (topLeftY frameRect) cornerTargetRad)
           cornerTargetRad
           frameRect;
    mkCall (nsub (nadd (topLeftX frameRect) (width frameRect)) cornerTargetRad)
           (nadd (topLeftY frameRect) cornerTargetRad)
           cornerTargetRad
           frameRect;
    mkCall (nadd (topLeftX frameRect) cornerTargetRad)
           (nsub (nadd (topLeftY frameRect) (height frameRect)) cornerTargetRad)
           cornerTargetRad
           frameRect;
    mkCall (nsub (nadd (topLeftX frameRect) (width frameRect)) cornerTargetRad)
           (nsub (nadd (topLeftY frameRect) (height frameRect)) cornerTargetRad)
           cornerTargetRad
           frameRect ].

(** The calls of a list, one after the other. *)
Fixpoint runTargets (fuel : nat) (calls : list target_call) (c : Context)
  : outcome Context :=
  match calls with
  | [] => Done c
  | k :: rest =>
      c <- drawTargetMoire fuel (call_x k) (call_y k) (call_outR k)
                           (call_rect k) c ;;
      runTargets fuel rest c
  end.

(** Lines 239-259: the six guide lines. *)
Definition drawGuides (frameRect : Rect) (frameWidth : num) (c : Context)
  : Context :=
  let cornerTargetRad := cornerTargetRad frameRect in
  let c := set_lineWidth (getPPLineWidth (height frameRect)) c in
  let c := drawLine (topLeftX frameRect)
                    (ndiv (height frameRect) (Fin 2))
                    (nadd (topLeftX frameRect) (width frameRect))
                    (ndiv (height frameRect) (Fin 2)) c in
  let c := drawLine (topLeftX frameRect)
                    (nadd (topLeftY frameRect) cornerTargetRad)
                    (nadd (topLeftX frameRect) (width frameRect))
                    (nadd (topLeftY frameRect) cornerTargetRad) c in
  let c := drawLine (topLeftX frameRect)
                    (nsub (nadd (topLeftY frameRect) (height frameRect))
                          cornerTargetRad)
                    (nadd (topLeftX frameRect) (width frameRect))
                    (nsub (nadd (topLeftY frameRect) (height frameRect))
                          cornerTargetRad) c in
  let c := set_lineWidth (getPPLineWidth frameWidth) c in
  let c := drawLine (nadd (topLeftX frameRect) (ndiv (width frameRect) (Fin 2)))
                    (topLeftY frameRect)
                    (nadd (topLeftX frameRect) (ndiv (width frameRect) (Fin 2)))
                    (height frameRect) c in
  let c := drawLine (nadd (topLeftX frameRect) cornerTargetRad)
                    (topLeftY frameRect)
                    (nadd (topLeftX frameRect) cornerTargetRad)
                    (height frameRect) c in
  drawLine (nsub (nadd (topLeftX frameRect) (width frameRect)) cornerTargetRad)
           (topLeftY frameRect)
           (nsub (nadd (topLeftX frameRect) (width frameRect)) cornerTargetRad)
           (height frameRect) c.

(** [canvasWidth] and [canvasHeight] are [ctx.canvas.width] and
    [ctx.canvas.height], integers. *)
Definition drawTable (fuel : nat) (c : Context) : outcome Context :=
  let canvasWidth := num_of_Z (canvas_width c) in
  let canvasHeight := num_of_Z (canvas_height c) in
  let c := clearRect (Fin 0) (Fin 0) canvasWidth canvasHeight c in
  let c := drawRect (Color "#000")
                    (mkRect (Fin 0) (Fin 0) canvasWidth canvasHeight) c in
  let frameRect := frameLayout canvasWidth canvasHeight in
  let c := drawRect (Color "#fff") frameRect c in
  c <- drawChessMoire fuel c frameRect ;;
  c <- runTargets fuel (targetCalls frameRect) c ;;
  Done (drawGuides frameRect (width frameRect) c).

(** ** The closed form of the specification *)

(** The diameter of the corner circle as the specification writes it, for
    half-width [a] and half-height [b]: [y = PI/4 - asin (-(b - a) / b)],
    [X = b - b * sin y]; no value where the arc sine has none. *)
Definition spec_cornerDiameter (a b : R) : num :=
  let t := - (b - a) / b in
  if R_leb (-1) t && R_leb t 1
  then Fin (b - b * sin (PI / 4 - asin t))
  else NaN.

(** ** Fuel that suffices

    Numbers of turns after which the loops have ended: of the ring loop for
    a finite [outR], of the line loop for a finite [rect.height], and of
    both for the frame of a surface of height [H]. *)

Definition ring_bound (outR : R) : nat := S (Z.to_nat (Zfloor outR)).

Definition chess_bound (h : R) : nat := S (S (Z.to_nat (Zfloor h))).

Definition table_bound (H : Z) : nat := S (S (Z.to_nat H)).

(** ** What the loops leave on the surface *)

(** [p] is a ring of a target of outer radius [outR] over [rect]: a
    gradient fill of exactly [rect], from radius [curR - 5] to radius
    [curR + prgValue], with [5 <= curR], [1 < prgValue] and
    [curR + prgValue <= outR]. *)
Definition is_ring_paint (rect : Rect) (outR : R) (p : paint) : Prop :=
  match p with
  | FillRect (Gradient g) x y w h =>
      x = topLeftX rect /\ y = topLeftY rect
      /\ w = width rect /\ h = height rect
      /\ exists curR prgValue : R,
          5 <= curR /\ 1 < prgValue /\ curR + prgValue <= outR
          /\ g_r0 g = Fin (curR - 5) /\ g_r1 g = Fin (curR + prgValue)
  | _ => False
  end.

(** The attributes a ring target leaves alone. *)
Definition same_pen (c c' : Context) : Prop :=
  canvas_width c' = canvas_width c
  /\ canvas_height c' = canvas_height c
  /\ strokeStyle c' = strokeStyle c
  /\ lineWidth c' = lineWidth c
  /\ lineDash c' = lineDash c
  /\ path c' = path c.

(** ** The line moire as the specification describes it *)

(** The [k]-th line from the top, counting from 0, of a moire of cell size
    [cellSize] over a rect at [x] of width [w]: at height
    [cellSize / 2 + k * cellSize], starting at offset 0 when [k] is even
    and [cellSize] when it is odd. *)
Definition spec_chessLine (x w cellSize : R) (k : nat) : paint :=
  let lineY := Fin (cellSize / 2 + INR k * cellSize) in
  let startOffset := if Nat.even k then 0 else cellSize in
  Stroke (Color "#000") (Fin cellSize) [Fin cellSize; Fin cellSize]
         [MoveTo (Fin (x + startOffset)) lineY; LineTo (Fin (x + w)) lineY].

(** The number of lines whose height is at most [h]. *)
Definition spec_chessCount (h cellSize : R) : nat :=
  Z.to_nat (Zfloor ((h - cellSize / 2) / cellSize) + 1).

(** The stroke attributes [drawChessMoire] sets. *)
Definition chess_pen (cellSize : R) (c : Context) : Prop :=
  strokeStyle c = Color "#000"
  /\ lineWidth c = Fin cellSize
  /\ lineDash c = [Fin cellSize; Fin cellSize].

(** The variables of the line loop before its [k]-th turn, counting
    from 0. *)
Definition chess_at (cellSize : R) (k : nat) (c : Context) : chess_state :=
  mkChess (Fin (cellSize / 2 + INR k * cellSize))
          (Fin (if Nat.even k then 0 else cellSize)) c.

(** [p], when it is a fill, fills exactly [rect]. *)
Definition fill_within (rect : Rect) (p : paint) : Prop :=
  match p with
  | FillRect _ x y w h =>
      x = topLeftX rect /\ y = topLeftY rect
      /\ w = width rect /\ h = height rect
  | _ => True
  end.

(** [c'] is [c] with more paint, every new entry satisfying [P], on a
    canvas of the same size. *)
Definition extends (P : paint -> Prop) (c c' : Context) : Prop :=
  canvas_width c' = canvas_width c
  /\ canvas_height c' = canvas_height c
  /\ exists l, surface c' = surface c ++ l /\ Forall P l.

(** ** Contexts that differ in the current path only *)

Definition same_but_path (c1 c2 : Context) : Prop :=
  set_path [] c1 = set_path [] c2.

Definition ring_rel (s1 s2 : ring_state) : Prop :=
  curR s1 = curR s2 /\ step s1 = step s2
  /\ same_but_path (ring_ctx s1) (ring_ctx s2).

Definition chess_rel (s1 s2 : chess_state) : Prop :=
  lineY s1 = lineY s2 /\ startOffset s1 = startOffset s2
  /\ same_but_path (chess_ctx s1) (chess_ctx s2).

(** Two results of the same kind, related when they carry a value. *)
Definition outcome_rel {A : Type} (R : A -> A -> Prop) (o1 o2 : outcome A)
  : Prop :=
  match o1, o2 with
  | Done a, Done b => R a b
  | Throw e1, Throw e2 => e1 = e2
  | Timeout, Timeout => True
  | _, _ => False
  end.

Definition flow_rel {S : Type} (R : S -> S -> Prop) (f1 f2 : flow S) : Prop :=
  match f1, f2 with
  | Next a, Next b => R a b
  | Stop a, Stop b => R a b
  | Raise e1, Raise e2 => e1 = e2
  | _, _ => False
  end.

(** ** Discs and guide lines *)

(** The disc of centre [(x, y)] and radius [r] has real data and lies
    within [rect]. *)
Definition disc_within (rect : Rect) (x y r : num) : Prop :=
  exists x0 y0 r0 rx ry rw rh : R,
    x = Fin x0 /\ y = Fin y0 /\ r = Fin r0
    /\ topLeftX rect = Fin rx /\ topLeftY rect = Fin ry
    /\ width rect = Fin rw /\ height rect = Fin rh
    /\ 0 <= r0
    /\ rx <= x0 - r0 /\ x0 + r0 <= rx + rw
    /\ ry <= y0 - r0 /\ y0 + r0 <= ry + rh.

(** ** The rings of a target as the code produces them *)

(** The width of the ring of step [k] of a target that starts at [startR]:
    [startR ^ (1 - 5 * (k - 1) / outR)]. *)
Definition spec_ringWidth (startR outR : R) (k : Z) : R :=
  Rpower startR (1 - (IZR k - 1) * 5 / outR).

(** The ring painted at [curR] with width [prgValue]: a fill of [rect] with
    the gradient between the circles of radius [curR - 5] and
    [curR + prgValue] around [(x, y)]. *)
Definition spec_ring (x y : num) (rect : Rect) (curR prgValue : R) : paint :=
  FillRect (Gradient (ring_stops (mkGradient x y (Fin (curR - 5))
                                             x y (Fin (curR + prgValue)) [])))
           (topLeftX rect) (topLeftY rect) (width rect) (height rect).

(** [ring_chain x y rect w k c k' e l]: [l] is the rings of the steps [k],
    ..., [k' - 1], the first at [curR = c], each of the width [w] gives its
    step and starting where the one before ends; the last ends at [e]. *)
Inductive ring_chain (x y : num) (rect : Rect) (w : Z -> R)
  : Z -> R -> Z -> R -> list paint -> Prop :=
| chain_nil (k : Z) (c : R) : ring_chain x y rect w k c k c []
| chain_cons (k : Z) (c : R) (k' : Z) (e : R) (l : list paint) :
    5 <= c -> 1 < w k ->
    ring_chain x y rect w (k + 1) (c + w k) k' e l ->
    ring_chain x y rect w k c k' e (spec_ring x y rect c (w k) :: l).

(** The width of the ring of step [k], [startR * Math.pow(q, k - 1)], as a
    real number; 0 where the product is not a finite number. *)
Definition ring_width (startR q : num) (k : Z) : R :=
  match prgValue_at startR q k with
  | Fin p => p
  | _ => 0
  end.

(** [l] is what the call [k] of [drawTargetMoire] paints: with [startR] and
    the widths as the code computes them, the rings of the steps 1, ...,
    [n - 1], the first at [curR = startR] and each where the one before
    ends, all of them within [outR]; at step [n], where [curR = e], one of
    the four tests of the loop ends the call. *)
Definition target_rings (k : target_call) (l : list paint) : Prop :=
  exists (o s0 : R) (n : Z) (e : R),
    let w := ring_width (Fin s0) (ring_q (Fin o) (Fin s0)) in
    call_outR k = Fin o
    /\ ring_startR (call_outR k) (call_rect k) = Fin s0
    /\ ring_chain (call_x k) (call_y k) (call_rect k) w 1 s0 n e l
    /\ (l <> [] -> e <= o)
    /\ (o < e \/ o < e + w n \/ w n <= 1 \/ e < 5).


(** ** The guide lines as the code draws them *)

(** A solid black line of width [lw] from [(x0, y0)] to [(x1, y1)]. *)
Definition spec_guide (lw : num) (x0 y0 x1 y1 : R) : paint :=
  Stroke (Color "#000") lw []
         [MoveTo (Fin x0) (Fin y0); LineTo (Fin x1) (Fin y1)].

(** The six lines of [drawGuides] over the rect [(x, y, w, h)] for the
    corner radius [r]: three horizontal ones of width [lwH], three vertical
    ones of width [lwV]. *)
Definition spec_guideLines (x y w h r : R) (lwH lwV : num) : list paint :=
  [ spec_guide lwH x (h / 2) (x + w) (h / 2);
    spec_guide lwH x (y + r) (x + w) (y + r);
    spec_guide lwH x (y + h - r) (x + w) (y + h - r);
    spec_guide lwV (x + w / 2) y (x + w / 2) h;
    spec_guide lwV (x + r) y (x + r) h;
    spec_guide lwV (x + w - r) y (x + w - r) h ].

(** ** The page

    What [src/index.js] reads and writes of the document besides the
    drawing context: the size of the viewport,
    [document.documentElement.clientWidth] and [.clientHeight], the inline
    [width] and [height] of the canvas and the inline [display] of the
    About element, the empty string when the inline style has none. *)

Record Page : Type := mkPage
  { clientWidth : Z;
    clientHeight : Z;
    ctx : Context;
    canvas_style_width : string;
    canvas_style_height : string;
    about_style_display : string }.


(** [about.style.display = v] for [v] the empty string or ["none"], the
    two values the code assigns: both are accepted. *)
Definition set_about_style_display (v : string) (p : Page) : Page :=
  mkPage (clientWidth p) (clientHeight p) (ctx p) (canvas_style_width p)
         (canvas_style_height p) v.








(** Lines 49-51. *)
Definition toggleAbout (p : Page) : Page :=
  set_about_style_display
    (if about_style_display p =? "none" then EmptyString else "none") p.

(** The [id] of an entry of an event path: a string for an element,
    undefined for the document and the window. *)
Inductive value : Type :=
| Undefined
| Str (s : string).

(** [v == s] for a string [s]. *)
Definition loose_eq (v : value) (s : string) : bool :=
  match v with
  | Str t => t =? s
  | Undefined => false
  end.

Record Element : Type := mkElement { elm_id : value }.

Record Event : Type := mkEvent { composedPath : list Element }.

(** [array.forEach(callback)]: the callback runs on every entry in order;
    what it returns is dropped. *)
Definition forEach {A S : Type} (l : list A) (callback : A -> S -> S) (s : S)
  : S :=
  fold_left (fun s a => callback a s) l s.

(** Lines 57-64: the [document.onclick] handler that [hideAbout]
    installs.  The [return] of line 61 leaves the callback of [forEach],
    not the handler. *)
Definition hideAbout_onclick (event : Event) (p : Page) : Page :=
  if about_style_display p =? "none" then p
  else
    let path := composedPath event in
    let p := forEach path
                     (fun elm p => if loose_eq (elm_id elm) "about" then p
                                   else p) p in
    set_about_style_display "none" p.

(** * Properties *)

(** ** Arithmetic *)

(** The tests decide the order and the equality of the reals. *)
Lemma R_ltb_true a b : R_ltb a b = true <-> a < b.
Proof. unfold R_ltb; destruct (Rlt_dec a b); split; intros; try easy. Qed.

Lemma R_ltb_false a b : R_ltb a b = false <-> b <= a.
Proof. unfold R_ltb; destruct (Rlt_dec a b); split; intros; try easy; lra. Qed.

Lemma R_leb_true a b : R_leb a b = true <-> a <= b.
Proof. unfold R_leb; destruct (Rle_dec a b); split; intros; try easy. Qed.

Lemma R_leb_false a b : R_leb a b = false <-> b < a.
Proof. unfold R_leb; destruct (Rle_dec a b); split; intros; try easy; lra. Qed.

Lemma R_eqb_true a b : R_eqb a b = true <-> a = b.
Proof. unfold R_eqb; destruct (Req_dec_T a b); split; intros; try easy. Qed.

Lemma R_eqb_false a b : R_eqb a b = false <-> a <> b.
Proof. unfold R_eqb; destruct (Req_dec_T a b); split; intros; try easy. Qed.

Lemma Rdiv_lower (a d lo : R) : 0 < d -> lo * d <= a -> lo <= a / d.
Proof.
  intros Hd H. assert (0 < / d) by (apply Rinv_0_lt_compat; lra).
  replace lo with (lo * d * / d) by (field; lra).
  unfold Rdiv. apply Rmult_le_compat_r; lra.
Qed.

Lemma Rdiv_upper (a d hi : R) : 0 < d -> a < hi * d -> a / d < hi.
Proof.
  intros Hd H. assert (0 < / d) by (apply Rinv_0_lt_compat; lra).
  replace hi with (hi * d * / d) by (field; lra).
  unfold Rdiv. apply Rmult_lt_compat_r; lra.
Qed.

Lemma Rdiv_upper_le (a d hi : R) : 0 < d -> a <= hi * d -> a / d <= hi.
Proof.
  intros Hd H. assert (0 < / d) by (apply Rinv_0_lt_compat; lra).
  replace hi with (hi * d * / d) by (field; lra).
  unfold Rdiv. apply Rmult_le_compat_r; lra.
Qed.

Lemma Rdiv_lower_lt (a d lo : R) : 0 < d -> lo * d < a -> lo < a / d.
Proof.
  intros Hd H. assert (0 < / d) by (apply Rinv_0_lt_compat; lra).
  replace lo with (lo * d * / d) by (field; lra).
  unfold Rdiv. apply Rmult_lt_compat_r; lra.
Qed.

(** On integers the real floor of a quotient is Euclidean division. *)
Lemma Zfloor_IZR_div (n d : Z) :
  (0 < d)%Z -> Zfloor (IZR n / IZR d) = (n / d)%Z.
Proof.
  intros Hd. apply Zfloor_eq.
  pose proof (Z.div_mod n d ltac:(lia)) as E.
  pose proof (Z.mod_pos_bound n d Hd) as [B1 B2].
  apply IZR_le in B1. apply IZR_lt in B2. apply IZR_lt in Hd.
  apply (f_equal IZR) in E. rewrite plus_IZR, mult_IZR in E.
  split.
  - apply Rdiv_lower; lra.
  - apply Rdiv_upper; lra.
Qed.

Lemma Ztrunc_IZR_div (n d : Z) :
  (0 < d)%Z -> Ztrunc (IZR n / IZR d) = (n ÷ d)%Z.
Proof.
  intros Hd. unfold Ztrunc.
  assert (Hd' : 0 < IZR d) by (apply IZR_lt; lia).
  destruct (Z_le_gt_dec 0 n) as [Hn|Hn].
  - replace (R_leb 0 (IZR n / IZR d)) with true.
    + rewrite Zfloor_IZR_div by lia. symmetry. apply Z.quot_div_nonneg; lia.
    + symmetry. apply R_leb_true. apply Rdiv_lower; [lra|].
      apply IZR_le in Hn; lra.
  - destruct (R_leb 0 (IZR n / IZR d)) eqn:E.
    + apply R_leb_true in E.
      assert (IZR n < 0) by (apply IZR_lt; lia).
      assert (IZR n / IZR d < 0) by (apply Rdiv_upper; lra).
      lra.
    + unfold Zceil.
      replace (- (IZR n / IZR d)) with (IZR (- n) / IZR d)
        by (rewrite opp_IZR; field; lra).
      rewrite Zfloor_IZR_div by lia.
      rewrite <- (Z.opp_involutive n) at 2. rewrite Z.quot_opp_l by lia.
      rewrite Z.quot_div_nonneg by lia. reflexivity.
Qed.

(** ** The pixel-perfect line width *)

(** On an integer the remainder by 2 is 0 or it is not, with the parity. *)
Lemma getPPLineWidth_Z (v : Z) :
  getPPLineWidth (num_of_Z v) = if Z.odd v then Fin 3 else Fin 4.
Proof.
  unfold getPPLineWidth, num_of_Z, nrem.
  replace (R_eqb 2 0) with false by (symmetry; apply R_eqb_false; lra).
  rewrite (Ztrunc_IZR_div v 2) by lia.
  replace (IZR v - 2 * IZR (v ÷ 2)) with (IZR (Z.rem v 2)).
  2:{ rewrite <- mult_IZR, <- minus_IZR. f_equal.
      pose proof (Z.quot_rem' v 2). lia. }
  unfold truthy.
  destruct (Z.odd v) eqn:O.
  - replace (R_eqb (IZR (Z.rem v 2)) 0) with false; [reflexivity|].
    symmetry. apply R_eqb_false. intros E. apply eq_IZR in E.
    apply Z.rem_divide in E; [|lia].
    rewrite <- Z.negb_even in O. apply negb_true_iff in O.
    destruct E as [k E]. rewrite E, Z.even_mul in O. simpl in O.
    rewrite orb_true_r in O. discriminate.
  - replace (R_eqb (IZR (Z.rem v 2)) 0) with true; [reflexivity|].
    symmetry. apply R_eqb_true. f_equal.
    rewrite <- Z.negb_even in O. apply negb_false_iff in O.
    apply Z.even_spec in O. destruct O as [k ->].
    rewrite Z.mul_comm. apply Z.rem_mul. lia.
Qed.

(** C9: for every integer [v >= 0], [getPPLineWidth] returns 3 when [v] is
    odd and 4 when [v] is even. *)
Theorem getPPLineWidth_parity (v : Z) :
  (0 <= v)%Z ->
  (Z.odd v = true -> getPPLineWidth (num_of_Z v) = Fin 3)
  /\ (Z.even v = true -> getPPLineWidth (num_of_Z v) = Fin 4).
Proof.
  intros _. rewrite getPPLineWidth_Z. split.
  - intros ->. reflexivity.
  - intros E. rewrite <- Z.negb_even, E. reflexivity.
Qed.

Lemma getPPLineWidth_parity_witness :
  (0 <= 900)%Z /\ getPPLineWidth (num_of_Z 900) = Fin 4.
Proof.
  split; [lia|].
  exact (proj2 (getPPLineWidth_parity 900 ltac:(lia)) eq_refl).
Defined.

(** Whatever the number, the width is 3 or 4. *)
Lemma getPPLineWidth_cases (v : num) :
  getPPLineWidth v = Fin 3 \/ getPPLineWidth v = Fin 4.
Proof. unfold getPPLineWidth. destruct (truthy _); auto. Qed.

(** ** Computing with finite numbers *)

(** Case analysis on every real test in sight, closing what linear
    arithmetic closes. *)
Ltac rcases :=
  unfold R_ltb, R_leb, R_eqb in *;
  repeat match goal with
         | |- context [Rlt_dec ?a ?b] => destruct (Rlt_dec a b)
         | |- context [Rle_dec ?a ?b] => destruct (Rle_dec a b)
         | |- context [Req_dec_T ?a ?b] => destruct (Req_dec_T a b)
         | H : context [Rlt_dec ?a ?b] |- _ => destruct (Rlt_dec a b)
         | H : context [Rle_dec ?a ?b] |- _ => destruct (Rle_dec a b)
         | H : context [Req_dec_T ?a ?b] |- _ => destruct (Req_dec_T a b)
         end;
  try discriminate; try reflexivity; try lra.

Lemma ndiv_Fin (a b : R) : b <> 0 -> ndiv (Fin a) (Fin b) = Fin (a / b).
Proof. intros H. cbn. rcases. Qed.

Lemma nsub_Fin (a b : R) : nsub (Fin a) (Fin b) = Fin (a - b).
Proof. reflexivity. Qed.

Ltac nsimpl :=
  unfold num_of_Z;
  repeat first
    [ rewrite ndiv_Fin by lra
    | rewrite nsub_Fin
    | progress cbn [nadd nmul nneg Math_floor Math_sin
                    topLeftX topLeftY width height] ].

(** ** The frame layout *)

Lemma frameLayout_Z (W H : Z) :
  frameLayout (num_of_Z W) (num_of_Z H)
  = mkRect (num_of_Z ((W - H * 4 / 3) / 2)) (Fin 0)
           (num_of_Z (H * 4 / 3)) (num_of_Z H).
Proof.
  unfold frameLayout. nsimpl.
  replace (IZR H * 4) with (IZR (H * 4)) by (rewrite mult_IZR; reflexivity).
  rewrite (Zfloor_IZR_div (H * 4) 3) by lia.
  rewrite <- minus_IZR.
  rewrite (Zfloor_IZR_div _ 2) by lia.
  reflexivity.
Qed.

Lemma frame_width_bounds (H : Z) :
  (0 < H -> H <= H * 4 / 3 /\ 3 * (H * 4 / 3) <= 4 * H)%Z.
Proof.
  intros. split.
  - apply Z.div_le_lower_bound; lia.
  - pose proof (Z.mul_div_le (H * 4) 3 ltac:(lia)). lia.
Qed.



(** ** The corner target *)

Lemma asin_nonneg (t : R) : 0 <= t <= 1 -> 0 <= asin t.
Proof.
  intros [H0 H1].
  destruct (Rle_lt_dec 0 (asin t)) as [|Hneg]; [assumption|exfalso].
  pose proof (asin_bound t) as [Hl _].
  assert (Hs : sin (asin t) = t) by (apply sin_asin; lra).
  assert (0 < sin (- asin t)).
  { pose proof PI_RGT_0. apply sin_gt_0; lra. }
  rewrite sin_neg in H. lra.
Qed.

Lemma sin_lt_1_in (y : R) : - (PI / 2) <= y -> y < PI / 2 -> sin y < 1.
Proof.
  intros Hl Hu. rewrite <- sin_PI2.
  pose proof PI_RGT_0.
  apply sin_increasing_1; lra.
Qed.

Lemma getCornerTargetSize_spec (x y : num) (w h : R) :
  0 < h / 2 ->
  getCornerTargetSize (mkRect x y (Fin w) (Fin h))
  = spec_cornerDiameter (w / 2) (h / 2).
Proof.
  intros Hh.
  unfold getCornerTargetSize, spec_cornerDiameter, Math_PI. nsimpl.
  unfold Math_asin.
  destruct (R_leb (-1) (- (h / 2 - w / 2) / (h / 2))
            && R_leb (- (h / 2 - w / 2) / (h / 2)) 1);
    nsimpl; reflexivity.
Qed.

Lemma spec_cornerDiameter_defined (a b : R) :
  0 < b -> 0 <= a <= 2 * b ->
  spec_cornerDiameter a b
  = Fin (b - b * sin (PI / 4 - asin (- (b - a) / b))).
Proof.
  intros Hb Ha. unfold spec_cornerDiameter.
  assert (B : -1 <= - (b - a) / b <= 1)
    by (split; [apply Rdiv_lower | apply Rdiv_upper_le]; lra).
  replace (R_leb (-1) _) with true by (symmetry; apply R_leb_true; lra).
  replace (R_leb _ 1) with true by (symmetry; apply R_leb_true; lra).
  reflexivity.
Qed.



Lemma corner_radius_bounds (x y : num) (w h : R) :
  0 < h -> h <= w -> w <= 2 * h ->
  exists r, cornerTargetRad (mkRect x y (Fin w) (Fin h)) = Fin r
            /\ 0 < r /\ r < h / 2.
Proof.
  intros Hh Hw Hw2.
  unfold cornerTargetRad. rewrite getCornerTargetSize_spec by lra.
  unfold spec_cornerDiameter.
  set (t := - (h / 2 - w / 2) / (h / 2)).
  assert (B : 0 <= t <= 1).
  { unfold t. split; [apply Rdiv_lower | apply Rdiv_upper_le]; lra. }
  replace (R_leb (-1) t) with true by (symmetry; apply R_leb_true; lra).
  replace (R_leb t 1) with true by (symmetry; apply R_leb_true; lra).
  cbn [andb]. nsimpl. eexists; split; [reflexivity|].
  pose proof (asin_nonneg t B) as A0.
  pose proof (asin_bound t) as [_ A1].
  pose proof PI_RGT_0 as Hpi.
  set (yy := PI / 4 - asin t) in *.
  assert (S1 : sin yy < 1) by (apply sin_lt_1_in; unfold yy; lra).
  assert (S2 : sin (- (PI / 2)) < sin yy)
    by (apply sin_increasing_1; unfold yy; lra).
  rewrite sin_neg, sin_PI2 in S2.
  split; nra.
Qed.

(** The frame of a surface of positive height is at least as wide as it is
    high, and less than twice as wide. *)
Lemma frame_proportions (W H : Z) :
  (0 < H)%Z ->
  exists bw fw : Z,
    frameLayout (num_of_Z W) (num_of_Z H)
    = mkRect (num_of_Z bw) (Fin 0) (num_of_Z fw) (num_of_Z H)
    /\ IZR H <= IZR fw <= 2 * IZR H /\ 0 < IZR H.
Proof.
  intros HH. rewrite frameLayout_Z. do 2 eexists. split; [reflexivity|].
  destruct (frame_width_bounds H HH) as [B1 B2].
  apply IZR_le in B1, B2. apply IZR_lt in HH.
  rewrite !mult_IZR in B2. lra.
Qed.

(** C5: on the frame of every surface of positive height the corner-target
    radius, half of what [getCornerTargetSize] returns, is a positive real
    no larger than half of the frame's shorter side; for a rect of 800 by
    600 it lies strictly between 0 and [b = 300]. *)
Theorem cornerTargetRad_bounded (W H : Z) :
  (0 < H)%Z ->
  let frameRect := frameLayout (num_of_Z W) (num_of_Z H) in
  (exists r fw fh : R,
      cornerTargetRad frameRect = Fin r
      /\ width frameRect = Fin fw /\ height frameRect = Fin fh
      /\ 0 < r /\ r <= Rmin fw fh / 2)
  /\ (forall x y : num,
         exists r, cornerTargetRad (mkRect x y (Fin 800) (Fin 600)) = Fin r
                   /\ 0 < r < 600 / 2).
Proof.
  intros HH. cbv zeta. split.
  - destruct (frame_proportions W H HH) as (bw & fw & E & B & Hpos).
    rewrite E. unfold num_of_Z.
    destruct (corner_radius_bounds (Fin (IZR bw)) (Fin 0) (IZR fw) (IZR H))
      as (r & Er & R0 & R1); try lra.
    exists r, (IZR fw), (IZR H). repeat split; try assumption.
    rewrite Rmin_right by lra. lra.
  - intros x y.
    destruct (corner_radius_bounds x y 800 600) as (r & Er & R0 & R1);
      try lra.
    exists r. auto.
Qed.

Lemma cornerTargetRad_bounded_witness :
  (0 < 900)%Z
  /\ exists r, cornerTargetRad (mkRect (Fin 0) (Fin 0) (Fin 800) (Fin 600))
               = Fin r /\ 0 < r < 600 / 2.
Proof.
  split; [lia|].
  exact (proj2 (cornerTargetRad_bounded 1200 900 ltac:(lia)) (Fin 0) (Fin 0)).
Defined.

(** ** Loops *)

(** A loop that has ended is not changed by more fuel. *)
Lemma iterate_more {S : Type} (body : S -> flow S) (n k : nat) (s : S) :
  iterate n body s <> Timeout -> iterate (n + k) body s = iterate n body s.
Proof.
  revert s. induction n as [|n IH]; intros s H; cbn in *.
  - congruence.
  - destruct (body s); auto.
Qed.

Lemma iterate_ge {S : Type} (body : S -> flow S) (n m : nat) (s : S) :
  (n <= m)%nat -> iterate n body s <> Timeout ->
  iterate m body s = iterate n body s.
Proof.
  intros Hle H. replace m with (n + (m - n))%nat by lia.
  apply iterate_more; assumption.
Qed.

(** What holds at the start, and is kept by every turn, holds at the
    end. *)
Lemma iterate_invariant {S : Type} (body : S -> flow S) (I : S -> Prop) :
  (forall s s', I s -> body s = Next s' -> I s') ->
  (forall s s', I s -> body s = Stop s' -> I s') ->
  forall n s r, I s -> iterate n body s = Done r -> I r.
Proof.
  intros HN HS. induction n as [|n IH]; intros s r Hs E; cbn in E.
  - discriminate.
  - destruct (body s) eqn:B; try discriminate.
    + eapply IH; [|exact E]. eapply HN; eassumption.
    + injection E as <-. eapply HS; eassumption.
Qed.

(** A loop whose turns do not throw does not throw. *)
Lemma iterate_no_throw {S : Type} (body : S -> flow S) :
  (forall s e, body s <> Raise e) ->
  forall n s e, iterate n body s <> Throw e.
Proof.
  intros HR. induction n as [|n IH]; intros s e; cbn.
  - discriminate.
  - destruct (body s) eqn:B; try discriminate.
    + apply IH.
    + exfalso. eapply HR; eassumption.
Qed.

(** ** The ring target *)

Section Ring.
Variables (x y : num) (o : R) (startR q : num) (rect : Rect).

(** A turn that stops leaves the variables and the context as they
    were. *)
Lemma ring_turn_stop_same (s s' : ring_state) :
  ring_turn x y (Fin o) startR q rect s = Stop s' -> s' = s.
Proof.
  unfold ring_turn.
  repeat match goal with
         | |- context [if ?b then _ else _] => destruct b
         end;
    try (destruct (generateRingGradient _ _ _ _)); congruence.
Qed.

(** What a turn that does not stop has seen. *)
Lemma ring_turn_guards (s : ring_state) :
  ring_turn x y (Fin o) startR q rect s <> Stop s ->
  exists c, curR s = Fin c /\ 5 <= c <= o
            /\ ngt (nadd (curR s) (prgValue_at startR q (step s))) (Fin o)
               = false
            /\ nle (prgValue_at startR q (step s)) (Fin 1) = false.
Proof.
  unfold ring_turn. intros H.
  destruct (nle (curR s) (Fin o)) eqn:E1; cbn [negb] in H; [|congruence].
  destruct (ngt _ _) eqn:E2; [congruence|].
  destruct (nle (prgValue_at _ _ _) _) eqn:E3; [congruence|].
  destruct (nlt (curR s) (Fin 5)) eqn:E4; [congruence|].
  destruct (curR s) as [c| | |]; cbn in E1, E4; try discriminate.
  exists c. apply R_leb_true in E1. apply R_ltb_false in E4. repeat split; auto.
Qed.

(** A turn after which the loop goes on has painted one ring. *)
Lemma ring_turn_next (s s' : ring_state) :
  ring_turn x y (Fin o) startR q rect s = Next s' ->
  exists c p g, curR s = Fin c /\ prgValue_at startR q (step s) = Fin p
              /\ 5 <= c /\ 1 < p /\ c + p <= o
              /\ curR s' = Fin (c + p) /\ step s' = (step s + 1)%Z
              /\ g_r0 g = Fin (c - 5) /\ g_r1 g = Fin (c + p)
              /\ ring_ctx s'
                 = fillRect (topLeftX rect) (topLeftY rect) (width rect)
                            (height rect)
                            (set_fillStyle (Gradient g) (ring_ctx s)).
Proof.
  intros E.
  destruct (ring_turn_guards s) as (c & Ec & Bc & G1 & G2); [congruence|].
  unfold ring_turn in E.
  rewrite Ec in *.
  replace (nle (Fin c) (Fin o)) with true in E
    by (symmetry; apply R_leb_true; lra).
  cbn [negb] in E. rewrite G1, G2 in E.
  replace (nlt (Fin c) (Fin 5)) with false in E
    by (symmetry; apply R_ltb_false; lra).
  destruct (prgValue_at startR q (step s)) as [p| | |] eqn:P.
  - cbn in G1, G2. apply R_ltb_false in G1. apply R_leb_false in G2.
    destruct (generateRingGradient _ _ _ _) as [e|g] eqn:G; [discriminate|].
    exists c, p, (ring_stops g).
    unfold generateRingGradient, createRadialGradient in G.
    destruct (negb _); [discriminate|]. destruct (_ || _); [discriminate|].
    injection G as <-. injection E as <-. cbn. repeat split; auto; lra.
  - cbn in G1. discriminate.
  - cbn in G2. discriminate.
  - unfold generateRingGradient, createRadialGradient in E.
    cbn in E. rewrite !andb_false_r in E. cbn in E. discriminate.
Qed.

(** Each ring moves [curR] by more than 1 towards [outR]. *)
Lemma ring_loop_terminates (n : nat) (s : ring_state) :
  (forall c, curR s = Fin c -> 5 <= c -> o < c + INR n + 1) ->
  iterate (S n) (ring_turn x y (Fin o) startR q rect) s <> Timeout.
Proof.
  revert s. induction n as [|n IH]; intros s H.
  - cbn. destruct (ring_turn x y (Fin o) startR q rect s) eqn:E;
      try discriminate.
    destruct (ring_turn_next _ _ E) as (c & p & g & Ec & _ & B5 & Bp & Bo & _).
    specialize (H c Ec B5). cbn in H. lra.
  - cbn [iterate].
    destruct (ring_turn x y (Fin o) startR q rect s) eqn:E; try discriminate.
    apply IH. intros c' Ec' _.
    destruct (ring_turn_next _ _ E)
      as (c & p & g & Ec & _ & B5 & Bp & Bo & Ec2 & _).
    rewrite Ec2 in Ec'. injection Ec' as <-.
    specialize (H c Ec B5). rewrite S_INR in H. lra.
Qed.
End Ring.

Lemma ring_bound_enough (o : R) : o < INR (Z.to_nat (Zfloor o)) + 1.
Proof.
  pose proof (Zfloor_bound o) as [_ B].
  destruct (Z_le_gt_dec 0 (Zfloor o)) as [Hz|Hz].
  - rewrite INR_IZR_INZ, Z2Nat.id by lia. exact B.
  - assert (IZR (Zfloor o) <= -1) by (apply IZR_le; lia).
    pose proof (pos_INR (Z.to_nat (Zfloor o))). lra.
Qed.

(** With [ring_bound o] turns of fuel, or more, the loop has ended. *)
Lemma drawTargetMoire_terminates (fuel : nat) (x y : num) (o : R)
  (rect : Rect) (c : Context) :
  (ring_bound o <= fuel)%nat ->
  drawTargetMoire fuel x y (Fin o) rect c <> Timeout
  /\ drawTargetMoire fuel x y (Fin o) rect c
     = drawTargetMoire (ring_bound o) x y (Fin o) rect c.
Proof.
  intros Hf. unfold drawTargetMoire.
  set (body := ring_turn _ _ _ _ _ _). set (s0 := mkRing _ _ _).
  assert (T : iterate (ring_bound o) body s0 <> Timeout).
  { apply ring_loop_terminates. intros c0 _ B5.
    pose proof (ring_bound_enough o). lra. }
  rewrite (iterate_ge body _ fuel s0 Hf T).
  split; [|reflexivity].
  destruct (iterate (ring_bound o) body s0); cbn; congruence.
Qed.

(** For [outR <= 0] the first turn leaves the loop. *)
Lemma drawTargetMoire_no_rings (fuel : nat) (x y : num) (o : R)
  (rect : Rect) (c : Context) :
  o <= 0 -> drawTargetMoire (S fuel) x y (Fin o) rect c = Done c.
Proof.
  intros Ho. unfold drawTargetMoire. cbn [iterate].
  set (body := ring_turn _ _ _ _ _ _). set (s0 := mkRing _ _ _).
  destruct (body s0) eqn:E.
  - assert (G : body s0 <> Stop s0) by congruence.
    apply ring_turn_guards in G. destruct G as (c0 & _ & B & _). lra.
  - apply ring_turn_stop_same in E. subst s. reflexivity.
  - assert (G : body s0 <> Stop s0) by congruence.
    apply ring_turn_guards in G. destruct G as (c0 & _ & B & _). lra.
Qed.

Lemma same_pen_refl (c : Context) : same_pen c c.
Proof. repeat split. Qed.

Lemma same_pen_trans (c1 c2 c3 : Context) :
  same_pen c1 c2 -> same_pen c2 c3 -> same_pen c1 c3.
Proof. unfold same_pen. intuition congruence. Qed.

Lemma fill_same_pen (g : style) (x y w h : num) (c : Context) :
  same_pen c (fillRect x y w h (set_fillStyle g c)).
Proof. unfold fillRect. destruct (all_finite x y w h); repeat split. Qed.

Lemma fill_surface (g : style) (x y w h : num) (c : Context) :
  surface (fillRect x y w h (set_fillStyle g c)) = surface c
  \/ surface (fillRect x y w h (set_fillStyle g c))
     = surface c ++ [FillRect g x y w h].
Proof. unfold fillRect. destruct (all_finite x y w h); cbn; auto. Qed.

(** What a completed ring target has done to the context. *)
Lemma drawTargetMoire_effect (fuel : nat) (x y : num) (o : R) (rect : Rect)
  (c c' : Context) :
  drawTargetMoire fuel x y (Fin o) rect c = Done c' ->
  same_pen c c'
  /\ exists l, surface c' = surface c ++ l
               /\ Forall (is_ring_paint rect o) l.
Proof.
  unfold drawTargetMoire.
  set (body := ring_turn _ _ _ _ _ _). set (s0 := mkRing _ _ _).
  destruct (iterate fuel body s0) as [r| |] eqn:E; cbn; try discriminate.
  intros H; injection H as <-.
  pose (I := fun s : ring_state =>
               same_pen c (ring_ctx s)
               /\ exists l, surface (ring_ctx s) = surface c ++ l
                            /\ Forall (is_ring_paint rect o) l).
  change (I r). eapply (iterate_invariant body I); [| |  |exact E].
  - unfold I. intros s s' (P & l & El & Fl) N.
    apply ring_turn_next in N.
    destruct N
      as (cr & p & g & Ec & Ep & B5 & Bp & Bo & _ & _ & G0 & G1 & Ectx).
    rewrite Ectx. split.
    + eapply same_pen_trans; [exact P|apply fill_same_pen].
    + destruct (fill_surface (Gradient g) (topLeftX rect) (topLeftY rect)
                             (width rect) (height rect) (ring_ctx s)) as [S|S];
        rewrite S, El.
      * exists l; auto.
      * exists (l ++ [FillRect (Gradient g) (topLeftX rect) (topLeftY rect)
                               (width rect) (height rect)]).
        split; [symmetry; apply app_assoc|].
        apply Forall_app; split; [exact Fl|]. constructor; [|constructor].
        cbn. repeat split. exists cr, p. auto.
  - intros s s' Hs St. apply ring_turn_stop_same in St. subst s'. exact Hs.
  - unfold I. split; [apply same_pen_refl|]. exists []. cbn.
    rewrite app_nil_r. auto.
Qed.

Lemma Rpower_pos (b e : R) : 0 < Rpower b e.
Proof. unfold Rpower. apply exp_pos. Qed.

Lemma Math_pow_pos_finite (b e : R) :
  0 < b -> exists r, Math_pow (Fin b) (Fin e) = Fin r /\ 0 < r.
Proof.
  intros Hb. unfold Math_pow.
  destruct (R_eqb e 0); [exists 1; split; [reflexivity|lra]|].
  replace (R_eqb b 0) with false by (symmetry; apply R_eqb_false; lra).
  replace (R_ltb 0 b) with true by (symmetry; apply R_ltb_true; lra).
  eexists; split; [reflexivity|apply Rpower_pos].
Qed.

(** With [startR > 0] and [outR > 0] every ring width is a real number. *)
Lemma prgValue_finite (s0 o : R) (step : Z) :
  0 < s0 -> 0 < o ->
  exists p, prgValue_at (Fin s0) (ring_q (Fin o) (Fin s0)) step = Fin p.
Proof.
  intros Hs Ho. unfold prgValue_at, ring_q. nsimpl.
  assert (o / 5 <> 0).
  { assert (0 < o / 5) by (apply Rdiv_lower_lt; lra). lra. }
  nsimpl.
  destruct (Math_pow_pos_finite (1 / s0) (1 / (o / 5))) as (qq & -> & Hq).
  { apply Rdiv_lower_lt; lra. }
  destruct (Math_pow_pos_finite qq (IZR step - 1) Hq) as (r & -> & _).
  eexists; reflexivity.
Qed.

(** At a finite centre [createRadialGradient] does not throw: the radii
    are the reals [curR - 5 >= 0] and [curR + prgValue]. *)
Lemma ring_turn_no_raise (x y o s0 : R) (rect : Rect) (s : ring_state)
  (e : exn) :
  0 < s0 ->
  ring_turn (Fin x) (Fin y) (Fin o) (Fin s0) (ring_q (Fin o) (Fin s0)) rect s
  <> Raise e.
Proof.
  intros Hs E.
  assert (G : ring_turn (Fin x) (Fin y) (Fin o) (Fin s0)
                        (ring_q (Fin o) (Fin s0)) rect s <> Stop s)
    by congruence.
  apply ring_turn_guards in G. destruct G as (c & Ec & Bc & G1 & G2).
  destruct (prgValue_finite s0 o (step s)) as (p & Ep); [lra|lra|].
  unfold ring_turn in E. rewrite Ec, Ep in *.
  cbn in G1, G2. apply R_ltb_false in G1. apply R_leb_false in G2.
  replace (nle (Fin c) (Fin o)) with true in E
    by (symmetry; apply R_leb_true; lra).
  replace (ngt (nadd (Fin c) (Fin p)) (Fin o)) with false in E
    by (symmetry; apply R_ltb_false; cbn; lra).
  replace (nle (Fin p) (Fin 1)) with false in E
    by (symmetry; apply R_leb_false; lra).
  replace (nlt (Fin c) (Fin 5)) with false in E
    by (symmetry; apply R_ltb_false; lra).
  cbn [negb] in E.
  unfold generateRingGradient, createRadialGradient in E. cbn in E.
  replace (R_ltb (c + - (5)) 0) with false in E
    by (symmetry; apply R_ltb_false; lra).
  replace (R_ltb (c + p) 0) with false in E
    by (symmetry; apply R_ltb_false; lra).
  cbn in E. discriminate.
Qed.

(** At a finite centre, and for a real [outR], the call returns. *)
Lemma drawTargetMoire_total (fuel : nat) (x y o : R) (rect : Rect)
  (c : Context) :
  (ring_bound o <= fuel)%nat ->
  exists c', drawTargetMoire fuel (Fin x) (Fin y) (Fin o) rect c = Done c'.
Proof.
  intros Hf.
  destruct (drawTargetMoire_terminates fuel (Fin x) (Fin y) o rect c Hf)
    as [T _].
  unfold drawTargetMoire in *.
  set (body := ring_turn _ _ _ _ _ _) in *. set (s0 := mkRing _ _ _) in *.
  destruct (iterate fuel body s0) as [r|e|] eqn:E; cbn in *.
  - eexists; reflexivity.
  - exfalso. destruct fuel as [|n]; [discriminate|].
    cbn [iterate] in E. destruct (body s0) as [s1|s1|e1] eqn:B.
    + assert (G : body s0 <> Stop s0) by congruence.
      apply ring_turn_guards in G. destruct G as (c0 & Ec & Bc & _).
      cbn [curR s0] in Ec. 
      revert E. unfold body. rewrite Ec. apply iterate_no_throw.
      intros s e'. apply ring_turn_no_raise. lra.
    + discriminate.
    + assert (G : body s0 <> Stop s0) by congruence.
      apply ring_turn_guards in G. destruct G as (c0 & Ec & Bc & _).
      cbn [curR s0] in Ec. 
      revert B. unfold body. rewrite Ec. apply ring_turn_no_raise. lra.
  - congruence.
Qed.

Lemma nle_NaN_r (a : num) : nle a NaN = false.
Proof. destruct a; reflexivity. Qed.

Lemma drawTargetMoire_NaN (fuel : nat) (x y : num) (rect : Rect) (c : Context) :
  drawTargetMoire (S fuel) x y NaN rect c = Done c.
Proof.
  unfold drawTargetMoire. cbn [iterate]. unfold ring_turn at 1.
  cbn [curR]. rewrite nle_NaN_r. reflexivity.
Qed.

(** C3: a turn of the ring loop at which [curR < 5], [prgValue <= 1] or
    [curR + prgValue > outR] ends the loop with the context untouched; the
    turns that paint (exactly one fill each) are turns where none of the
    three holds; every ring a completed call has painted satisfies
    [5 <= curR], [1 < prgValue] and [curR + prgValue <= outR]; and for
    [outR <= 0] the call returns the context it received: zero rings. *)
Theorem ring_never_painted_when_guarded (x y outR startR q : num)
  (rect : Rect) (s : ring_state) :
  let prgValue := prgValue_at startR q (step s) in
  (nlt (curR s) (Fin 5) = true
   \/ nle prgValue (Fin 1) = true
   \/ ngt (nadd (curR s) prgValue) outR = true ->
   ring_turn x y outR startR q rect s = Stop s)
  /\ (forall s', ring_turn x y outR startR q rect s = Next s' ->
       nlt (curR s) (Fin 5) = false
       /\ nle prgValue (Fin 1) = false
       /\ ngt (nadd (curR s) prgValue) outR = false
       /\ exists g,
           ring_ctx s'
           = fillRect (topLeftX rect) (topLeftY rect) (width rect)
                      (height rect) (set_fillStyle (Gradient g) (ring_ctx s)))
  /\ (forall fuel (o : R) c c',
         drawTargetMoire fuel x y (Fin o) rect c = Done c' ->
         exists l, surface c' = surface c ++ l
                   /\ Forall (is_ring_paint rect o) l)
  /\ (forall fuel (o : R) c,
         o <= 0 -> drawTargetMoire (S fuel) x y (Fin o) rect c = Done c).
Proof.
  cbv zeta. split; [|split; [|split]].
  - unfold ring_turn. intros H.
    destruct (nle (curR s) outR); cbn [negb]; [|reflexivity].
    destruct (ngt _ _); [reflexivity|].
    destruct (nle (prgValue_at _ _ _) _); [reflexivity|].
    destruct (nlt (curR s) (Fin 5)); [reflexivity|].
    destruct H as [H|[H|H]]; discriminate.
  - unfold ring_turn. intros s'.
    destruct (nle (curR s) outR); cbn [negb]; [|discriminate].
    destruct (ngt _ _); [discriminate|].
    destruct (nle (prgValue_at _ _ _) _); [discriminate|].
    destruct (nlt (curR s) (Fin 5)); [discriminate|].
    destruct (generateRingGradient _ _ _ _) as [e|g]; [discriminate|].
    intros E; injection E as <-. repeat split. eexists; reflexivity.
  - intros fuel o c c' E. apply (drawTargetMoire_effect _ _ _ _ _ _ _ E).
  - intros fuel o c Ho. apply drawTargetMoire_no_rings; assumption.
Qed.

Lemma ring_never_painted_when_guarded_witness :
  ring_turn (Fin 600) (Fin 450) (Fin 450) (Fin 45) (Fin 1)
            (mkRect (Fin 0) (Fin 0) (Fin 1200) (Fin 900))
            (mkRing (Fin 3) 1 (mkContext 1200 900 (Color "#fff") (Color "#000")
                                         (Fin 1) [] [] []))
  = Stop (mkRing (Fin 3) 1 (mkContext 1200 900 (Color "#fff") (Color "#000")
                                      (Fin 1) [] [] [])).
Proof.
  apply (proj1 (ring_never_painted_when_guarded
                  (Fin 600) (Fin 450) (Fin 450) (Fin 45) (Fin 1)
                  (mkRect (Fin 0) (Fin 0) (Fin 1200) (Fin 900))
                  (mkRing (Fin 3) 1
                          (mkContext 1200 900 (Color "#fff") (Color "#000")
                                     (Fin 1) [] [] [])))).
  left. cbn. apply R_ltb_true. lra.
Defined.



(** ** The line moire *)

Lemma spec_chessCount_exact (h cs : R) :
  0 < cs ->
  (forall k, (k < spec_chessCount h cs)%nat -> cs / 2 + INR k * cs <= h)
  /\ h < cs / 2 + INR (spec_chessCount h cs) * cs.
Proof.
  intros Hcs. unfold spec_chessCount.
  set (z := Zfloor ((h - cs / 2) / cs)).
  pose proof (Zfloor_bound ((h - cs / 2) / cs)) as [B1 B2]. fold z in B1, B2.
  assert (E : h - cs / 2 = (h - cs / 2) / cs * cs) by (field; lra).
  assert (L : IZR z * cs <= h - cs / 2)
    by (rewrite E; apply Rmult_le_compat_r; lra).
  assert (U : h - cs / 2 < (IZR z + 1) * cs)
    by (rewrite E at 1; apply Rmult_lt_compat_r; lra).
  destruct (Z_le_gt_dec 0 (z + 1)) as [Hz|Hz].
  - split.
    + intros k Hk. assert (Hk' : (Z.of_nat k <= z)%Z) by lia.
      apply IZR_le in Hk'. rewrite <- INR_IZR_INZ in Hk'.
      assert (INR k * cs <= IZR z * cs) by (apply Rmult_le_compat_r; lra). lra.
    + rewrite INR_IZR_INZ, Z2Nat.id, plus_IZR by lia. lra.
  - replace (Z.to_nat (z + 1)) with 0%nat by lia. split; [intros k Hk; lia|].
    cbn. assert (N : IZR (z + 1) <= -1) by (apply IZR_le; lia).
    rewrite plus_IZR in N.
    assert ((IZR z + 1) * cs <= 0) by nra. lra.
Qed.

Lemma spec_chessCount_bound (h cs : R) :
  1 <= cs -> (spec_chessCount h cs < chess_bound h)%nat.
Proof.
  intros Hcs. unfold spec_chessCount, chess_bound.
  set (z := Zfloor ((h - cs / 2) / cs)).
  assert (z <= Z.max 0 (Zfloor h))%Z; [|lia].
  destruct (Rle_lt_dec 0 h) as [Hh|Hh].
  - assert (z <= Zfloor h)%Z; [|lia]. apply Zfloor_le.
    apply Rdiv_upper_le; nra.
  - assert (z <= -1)%Z; [|lia].
    assert (Zfloor ((h - cs / 2) / cs) < 0)%Z; [|unfold z; lia].
    apply lt_IZR. pose proof (Zfloor_bound ((h - cs / 2) / cs)) as [B _].
    assert ((h - cs / 2) / cs < 0) by (apply Rdiv_upper; nra). lra.
Qed.

(** The [k]-th turn, when its line is within the rect. *)
Lemma chess_turn_draws (x w h cs : R) (y : num) (k : nat) (c : Context) :
  0 < cs -> cs / 2 + INR k * cs <= h -> chess_pen cs c ->
  exists c', chess_turn (Fin cs) (mkRect (Fin x) y (Fin w) (Fin h))
                        (chess_at cs k c)
             = Next (chess_at cs (S k) c')
             /\ chess_pen cs c'
             /\ canvas_width c' = canvas_width c
             /\ canvas_height c' = canvas_height c
             /\ fillStyle c' = fillStyle c
             /\ surface c' = surface c ++ [spec_chessLine x w cs k].
Proof.
  intros Hcs Hy (P1 & P2 & P3).
  unfold chess_turn, chess_at.
  cbn [lineY startOffset chess_ctx height topLeftX width nle].
  replace (R_leb (cs / 2 + INR k * cs) h) with true
    by (symmetry; apply R_leb_true; lra).
  cbn [negb].
  eexists. split.
  - f_equal. f_equal.
    + cbn [nadd]. f_equal. rewrite S_INR. lra.
    + rewrite Nat.even_succ, <- Nat.negb_even.
      destruct (Nat.even k); cbn [negb neq].
      * replace (R_eqb 0 cs) with false
          by (symmetry; apply R_eqb_false; lra).
        reflexivity.
      * replace (R_eqb cs cs) with true
          by (symmetry; apply R_eqb_true; lra).
        reflexivity.
  - destruct c; cbn in *. subst. unfold chess_pen. cbn. repeat split.
Qed.

Lemma chess_turn_stops (x w h cs : R) (y : num) (k : nat) (c : Context) :
  h < cs / 2 + INR k * cs ->
  chess_turn (Fin cs) (mkRect (Fin x) y (Fin w) (Fin h)) (chess_at cs k c)
  = Stop (chess_at cs k c).
Proof.
  intros Hy. unfold chess_turn, chess_at. cbn [lineY height nle].
  replace (R_leb (cs / 2 + INR k * cs) h) with false
    by (symmetry; apply R_leb_false; lra).
  reflexivity.
Qed.

(** From its [k]-th turn on, a loop with [m] lines left strokes them and
    stops. *)
Lemma chess_loop_lines (x w h cs : R) (y : num) :
  0 < cs ->
  forall (m k extra : nat) (c : Context),
    (forall j, (k <= j < k + m)%nat -> cs / 2 + INR j * cs <= h) ->
    h < cs / 2 + INR (k + m) * cs ->
    chess_pen cs c ->
    exists s',
      iterate (S m + extra)
              (chess_turn (Fin cs) (mkRect (Fin x) y (Fin w) (Fin h)))
              (chess_at cs k c) = Done s'
      /\ chess_pen cs (chess_ctx s')
      /\ canvas_width (chess_ctx s') = canvas_width c
      /\ canvas_height (chess_ctx s') = canvas_height c
      /\ fillStyle (chess_ctx s') = fillStyle c
      /\ surface (chess_ctx s')
         = surface c ++ map (spec_chessLine x w cs) (seq k m).
Proof.
  intros Hcs. induction m as [|m IH]; intros k extra c Hin Hout Hpen.
  - rewrite Nat.add_0_r in Hout. cbn [Nat.add iterate].
    rewrite chess_turn_stops by assumption.
    eexists; split; [reflexivity|]. cbn. rewrite app_nil_r. auto.
  - destruct (chess_turn_draws x w h cs y k c Hcs)
      as (c1 & E1 & P1 & W1 & H1 & F1 & S1);
      [apply Hin; lia|assumption|].
    change (S (S m) + extra)%nat with (S (S m + extra)).
    cbn [iterate]. rewrite E1.
    destruct (IH (S k) extra c1) as (s' & E & P & W' & H' & F' & S');
      [intros j Hj; apply Hin; lia
      |replace (S k + m)%nat with (k + S m)%nat by lia; assumption
      |assumption|].
    exists s'. split; [exact E|]. repeat split; try congruence; try apply P.
    rewrite S', S1. cbn [seq map]. rewrite <- app_assoc. reflexivity.
Qed.

Lemma cellSize_cases (v : num) :
  exists cs, nmul (getPPLineWidth v) (Fin 2) = Fin cs /\ (cs = 6 \/ cs = 8).
Proof.
  destruct (getPPLineWidth_cases v) as [-> | ->]; cbn [nmul];
    eexists; (split; [reflexivity|]); [left|right]; lra.
Qed.

(** What [drawChessMoire] does over a rect of real position, width and
    height, with fuel for one more turn than there are lines. *)
Lemma drawChessMoire_lines (fuel : nat) (c : Context) (x w h cs : R) (y : num) :
  nmul (getPPLineWidth (Fin h)) (Fin 2) = Fin cs ->
  1 <= cs ->
  (spec_chessCount h cs < fuel)%nat ->
  exists c',
    drawChessMoire fuel c (mkRect (Fin x) y (Fin w) (Fin h)) = Done c'
    /\ chess_pen cs c'
    /\ canvas_width c' = canvas_width c
    /\ canvas_height c' = canvas_height c
    /\ fillStyle c' = fillStyle c
    /\ surface c'
       = surface c
         ++ map (spec_chessLine x w cs) (seq 0 (spec_chessCount h cs)).
Proof.
  intros Ecs Hcs Hf. unfold drawChessMoire. cbn [height]. rewrite Ecs.
  rewrite ndiv_Fin by lra.
  set (c0 := setLineDash _ _).
  assert (P0 : chess_pen cs c0 /\ canvas_width c0 = canvas_width c
               /\ canvas_height c0 = canvas_height c
               /\ fillStyle c0 = fillStyle c /\ surface c0 = surface c).
  { unfold c0, setLineDash, set_lineWidth. cbn [forallb is_finite nle nlt andb].
    replace (R_ltb 0 cs) with true by (symmetry; apply R_ltb_true; lra).
    replace (R_leb 0 cs) with true by (symmetry; apply R_leb_true; lra).
    cbn. repeat split. }
  destruct P0 as (P0 & W0 & H0 & F0 & S0).
  destruct (spec_chessCount_exact h cs ltac:(lra)) as [Hin Hout].
  destruct (chess_loop_lines x w h cs y ltac:(lra) (spec_chessCount h cs) 0
              (fuel - S (spec_chessCount h cs)) c0)
              as (s' & E & P & W' & H' & F' & S');
    [intros j Hj; apply Hin; lia|exact Hout|exact P0|].
  replace (S (spec_chessCount h cs) + (fuel - S (spec_chessCount h cs)))%nat
    with fuel in E by lia.
  unfold chess_at in E. cbn [Nat.even INR] in E.
  replace (cs / 2 + 0 * cs) with (cs / 2) in E by lra.
  rewrite E. cbn [bind]. eexists; split; [reflexivity|].
  repeat split; try congruence; try apply P.
Qed.

(** C6: over a rect of real position, width and height [drawChessMoire]
    takes [cellSize = getPPLineWidth (rect.height) * 2], sets it as line
    width and as dash pattern [[cellSize, cellSize]], and strokes exactly
    the lines [k = 0, 1, ..., n - 1] at heights
    [cellSize / 2 + k * cellSize], their start offsets alternating
    [0, cellSize, 0, ...]; [n] is the first index whose height exceeds
    [rect.height], all earlier heights being at most [rect.height]. *)
Theorem drawChessMoire_correct (extra : nat) (c : Context) (x w h : R)
  (y : num) :
  let rect := mkRect (Fin x) y (Fin w) (Fin h) in
  exists cellSize : R,
    nmul (getPPLineWidth (height rect)) (Fin 2) = Fin cellSize
    /\ (let n := spec_chessCount h cellSize in
        (forall k, (k < n)%nat -> cellSize / 2 + INR k * cellSize <= h)
        /\ h < cellSize / 2 + INR n * cellSize
        /\ exists c',
            drawChessMoire (S n + extra) c rect = Done c'
            /\ strokeStyle c' = Color "#000"
            /\ lineWidth c' = Fin cellSize
            /\ lineDash c' = [Fin cellSize; Fin cellSize]
            /\ surface c'
               = surface c ++ map (spec_chessLine x w cellSize) (seq 0 n)).
Proof.
  cbv zeta. cbn [height].
  destruct (cellSize_cases (Fin h)) as (cs & Ecs & Hcs).
  exists cs. split; [exact Ecs|].
  assert (Hpos : 1 <= cs) by (destruct Hcs; lra).
  destruct (spec_chessCount_exact h cs ltac:(lra)) as [Hin Hout].
  split; [exact Hin|]. split; [exact Hout|].
  destruct (drawChessMoire_lines (S (spec_chessCount h cs) + extra) c x w h cs
              y Ecs Hpos ltac:(lia))
    as (c' & E & (P1 & P2 & P3) & _ & _ & _ & S').
  exists c'. auto.
Qed.

(** C10: [drawChessMoire] never reads [rect.topLeftY]: two rects that
    differ in it only give the same result from the same context; the lines
    are at the absolute heights [cellSize / 2 + k * cellSize]; and the
    frame [drawTable] builds has [topLeftY = 0]. *)
Theorem drawChessMoire_ignores_topLeftY (fuel : nat) (c : Context)
  (x y1 y2 w h : num) :
  drawChessMoire fuel c (mkRect x y1 w h)
  = drawChessMoire fuel c (mkRect x y2 w h)
  /\ (forall (xr wr hr : R) (extra : nat),
         exists cellSize c',
           nmul (getPPLineWidth (Fin hr)) (Fin 2) = Fin cellSize
           /\ drawChessMoire (S (spec_chessCount hr cellSize) + extra) c
                             (mkRect (Fin xr) y1 (Fin wr) (Fin hr)) = Done c'
           /\ surface c'
              = surface c ++ map (spec_chessLine xr wr cellSize)
                                 (seq 0 (spec_chessCount hr cellSize)))
  /\ (forall canvasWidth canvasHeight : num,
         topLeftY (frameLayout canvasWidth canvasHeight) = Fin 0).
Proof.
  split; [reflexivity|]. split; [|reflexivity].
  intros xr wr hr extra.
  destruct (cellSize_cases (Fin hr)) as (cs & Ecs & Hcs).
  assert (Hpos : 1 <= cs) by (destruct Hcs; lra).
  destruct (drawChessMoire_lines (S (spec_chessCount hr cs) + extra) c xr wr hr
              cs y1 Ecs Hpos ltac:(lia))
    as (c' & E & _ & _ & _ & _ & S').
  exists cs, c'. auto.
Qed.

(** ** Independence of the path left by earlier drawing *)

(** Related variables stay related through a loop whose turn respects the
    relation. *)
Lemma iterate_rel {S : Type} (R : S -> S -> Prop) (body : S -> flow S) :
  (forall s1 s2, R s1 s2 -> flow_rel R (body s1) (body s2)) ->
  forall n s1 s2, R s1 s2 ->
                  outcome_rel R (iterate n body s1) (iterate n body s2).
Proof.
  intros HB. induction n as [|n IH]; intros s1 s2 H; cbn; [exact I|].
  specialize (HB s1 s2 H).
  destruct (body s1), (body s2); cbn in HB; try contradiction; cbn; auto.
Qed.

Lemma bind_rel {A B : Type} (R : A -> A -> Prop) (R' : B -> B -> Prop)
  (o1 o2 : outcome A) (k1 k2 : A -> outcome B) :
  outcome_rel R o1 o2 ->
  (forall a b, R a b -> outcome_rel R' (k1 a) (k2 b)) ->
  outcome_rel R' (bind o1 k1) (bind o2 k2).
Proof.
  intros H HK. destruct o1, o2; cbn in *; try contradiction; auto.
Qed.

Lemma outcome_rel_eq {A : Type} (o1 o2 : outcome A) :
  outcome_rel eq o1 o2 -> o1 = o2.
Proof. destruct o1, o2; cbn; intros H; try contradiction; congruence. Qed.

Lemma same_but_path_refl (c : Context) : same_but_path c c.
Proof. reflexivity. Qed.

Ltac sbp :=
  unfold same_but_path, set_path in *;
  repeat match goal with
         | c : Context |- _ => destruct c
         end;
  cbn in *;
  repeat match goal with
         | H : mkContext _ _ _ _ _ _ _ _ = mkContext _ _ _ _ _ _ _ _ |- _ =>
             injection H as -> -> -> -> -> -> ->
         end.

Lemma same_but_path_fill (g : style) (x y w h : num) (c1 c2 : Context) :
  same_but_path c1 c2 ->
  same_but_path (fillRect x y w h (set_fillStyle g c1))
                (fillRect x y w h (set_fillStyle g c2)).
Proof.
  intros H. unfold fillRect, emit, set_surface, set_fillStyle.
  destruct (all_finite x y w h); sbp; reflexivity.
Qed.

Lemma ring_turn_rel (x y outR startR q : num) (rect : Rect)
  (s1 s2 : ring_state) :
  ring_rel s1 s2 ->
  flow_rel ring_rel (ring_turn x y outR startR q rect s1)
           (ring_turn x y outR startR q rect s2).
Proof.
  intros (E1 & E2 & E3). unfold ring_turn. rewrite <- E1, <- E2.
  assert (RR : ring_rel s1 s2) by (repeat split; assumption).
  destruct (nle (curR s1) outR); cbn [negb]; [|exact RR].
  destruct (ngt _ _); [exact RR|].
  destruct (nle (prgValue_at _ _ _) _); [exact RR|].
  destruct (nlt (curR s1) (Fin 5)); [exact RR|].
  destruct (generateRingGradient _ _ _ _) as [e|g]; cbn; [reflexivity|].
  repeat split. cbn. apply same_but_path_fill. exact E3.
Qed.

Lemma drawTargetMoire_rel (fuel : nat) (x y outR : num) (rect : Rect)
  (c1 c2 : Context) :
  same_but_path c1 c2 ->
  outcome_rel same_but_path (drawTargetMoire fuel x y outR rect c1)
              (drawTargetMoire fuel x y outR rect c2).
Proof.
  intros H. unfold drawTargetMoire.
  eapply bind_rel.
  - apply (iterate_rel ring_rel); [apply ring_turn_rel|].
    repeat split. exact H.
  - intros a b (_ & _ & E). exact E.
Qed.

Lemma runTargets_rel (fuel : nat) (calls : list target_call) (c1 c2 : Context) :
  same_but_path c1 c2 ->
  outcome_rel same_but_path (runTargets fuel calls c1)
              (runTargets fuel calls c2).
Proof.
  revert c1 c2. induction calls as [|k rest IH]; intros c1 c2 H; cbn.
  - exact H.
  - eapply bind_rel; [apply drawTargetMoire_rel; exact H|]. exact IH.
Qed.

Lemma chess_turn_rel (cellSize : num) (rect : Rect) (s1 s2 : chess_state) :
  chess_rel s1 s2 ->
  flow_rel chess_rel (chess_turn cellSize rect s1)
           (chess_turn cellSize rect s2).
Proof.
  intros (E1 & E2 & E3). unfold chess_turn. rewrite <- E1, <- E2.
  destruct (nle (lineY s1) (height rect)); cbn [negb flow_rel].
  - repeat split. cbn [chess_ctx].
    assert (B : beginPath (chess_ctx s1) = beginPath (chess_ctx s2))
      by exact E3.
    rewrite B. reflexivity.
  - repeat split; assumption.
Qed.

Lemma drawChessMoire_rel (fuel : nat) (c1 c2 : Context) (rect : Rect) :
  canvas_width c1 = canvas_width c2 ->
  canvas_height c1 = canvas_height c2 ->
  fillStyle c1 = fillStyle c2 ->
  surface c1 = surface c2 ->
  outcome_rel same_but_path (drawChessMoire fuel c1 rect)
              (drawChessMoire fuel c2 rect).
Proof.
  intros W H F S. unfold drawChessMoire.
  eapply bind_rel.
  - apply (iterate_rel chess_rel); [apply chess_turn_rel|].
    repeat split. cbn [chess_ctx].
    destruct (cellSize_cases (height rect)) as (cs & -> & Hcs).
    assert (0 < cs) by (destruct Hcs; lra).
    unfold setLineDash, set_lineWidth. cbn [forallb is_finite nle nlt andb].
    replace (R_ltb 0 cs) with true by (symmetry; apply R_ltb_true; lra).
    replace (R_leb 0 cs) with true by (symmetry; apply R_leb_true; lra).
    destruct c1, c2; cbn in *. subst. reflexivity.
  - intros a b (_ & _ & E). exact E.
Qed.

Lemma drawLine_rel (x0 y0 x1 y1 : num) (c1 c2 : Context) :
  same_but_path c1 c2 -> drawLine x0 y0 x1 y1 c1 = drawLine x0 y0 x1 y1 c2.
Proof.
  intros H. unfold drawLine.
  assert (B : beginPath (setLineDash [] (set_strokeStyle (Color "#000") c1))
              = beginPath (setLineDash [] (set_strokeStyle (Color "#000") c2))).
  { unfold beginPath, setLineDash. cbn [forallb]. sbp. reflexivity. }
  rewrite B. reflexivity.
Qed.

Lemma set_lineWidth_rel (v : num) (c1 c2 : Context) :
  same_but_path c1 c2 ->
  same_but_path (set_lineWidth v c1) (set_lineWidth v c2).
Proof.
  intros H. unfold set_lineWidth. destruct (_ && _); sbp; reflexivity.
Qed.

Lemma drawGuides_rel (frameRect : Rect) (frameWidth : num) (c1 c2 : Context) :
  same_but_path c1 c2 ->
  drawGuides frameRect frameWidth c1 = drawGuides frameRect frameWidth c2.
Proof.
  intros H. unfold drawGuides.
  rewrite (drawLine_rel _ _ _ _ (set_lineWidth _ c1) (set_lineWidth _ c2))
    by (apply set_lineWidth_rel; exact H).
  reflexivity.
Qed.

Lemma drawRect_surface (g : style) (r : Rect) (c : Context) :
  surface (drawRect g r c)
  = surface c
    ++ (if all_finite (topLeftX r) (topLeftY r) (width r) (height r)
        then [FillRect g (topLeftX r) (topLeftY r) (width r) (height r)]
        else []).
Proof.
  unfold drawRect, fillRect. destruct (all_finite _ _ _ _); cbn.
  - reflexivity.
  - rewrite app_nil_r. reflexivity.
Qed.

Lemma drawRect_attrs (g : style) (r : Rect) (c : Context) :
  fillStyle (drawRect g r c) = g
  /\ canvas_width (drawRect g r c) = canvas_width c
  /\ canvas_height (drawRect g r c) = canvas_height c.
Proof.
  unfold drawRect, fillRect. destruct (all_finite _ _ _ _); cbn; auto.
Qed.

Lemma clearRect_whole (c : Context) :
  let c' := clearRect (Fin 0) (Fin 0) (num_of_Z (canvas_width c))
                      (num_of_Z (canvas_height c)) c in
  surface c' = []
  /\ canvas_width c' = canvas_width c
  /\ canvas_height c' = canvas_height c.
Proof.
  unfold clearRect, covers_canvas, num_of_Z.
  cbn [all_finite is_finite andb nle nadd].
  replace (R_leb 0 0) with true by (symmetry; apply R_leb_true; lra).
  replace (R_leb (IZR (canvas_width c)) (0 + IZR (canvas_width c)))
    with true by (symmetry; apply R_leb_true; lra).
  replace (R_leb (IZR (canvas_height c)) (0 + IZR (canvas_height c)))
    with true by (symmetry; apply R_leb_true; lra).
  cbn. auto.
Qed.

(** The result of [drawTable] is a function of the size of the canvas. *)
Lemma drawTable_deterministic (fuel : nat) (c1 c2 : Context) :
  canvas_width c1 = canvas_width c2 ->
  canvas_height c1 = canvas_height c2 ->
  drawTable fuel c1 = drawTable fuel c2.
Proof.
  intros W H. apply outcome_rel_eq. unfold drawTable.
  destruct (clearRect_whole c1) as (S1 & W1 & H1).
  destruct (clearRect_whole c2) as (S2 & W2 & H2).
  cbv zeta in S1, W1, H1, S2, W2, H2. rewrite <- W, <- H in *.
  set (cw := num_of_Z (canvas_width c1)) in *.
  set (ch := num_of_Z (canvas_height c1)) in *.
  set (fr := frameLayout cw ch).
  set (d1 := clearRect _ _ _ _ c1) in *. set (d2 := clearRect _ _ _ _ c2) in *.
  eapply bind_rel; [|intros a b Hab; eapply bind_rel;
                      [apply runTargets_rel; exact Hab|]].
  - apply drawChessMoire_rel.
    + rewrite !(proj1 (proj2 (drawRect_attrs _ _ _))). congruence.
    + rewrite !(proj2 (proj2 (drawRect_attrs _ _ _))). congruence.
    + rewrite !(proj1 (drawRect_attrs _ _ _)). reflexivity.
    + rewrite !drawRect_surface, S1, S2. reflexivity.
  - intros a' b' Hab'. cbn. apply drawGuides_rel. exact Hab'.
Qed.

(** ** The whole table *)

Lemma extends_refl (P : paint -> Prop) (c : Context) : extends P c c.
Proof. repeat split. exists []. rewrite app_nil_r. auto. Qed.

Lemma extends_trans (P : paint -> Prop) (c1 c2 c3 : Context) :
  extends P c1 c2 -> extends P c2 c3 -> extends P c1 c3.
Proof.
  intros (W1 & H1 & l1 & S1 & F1) (W2 & H2 & l2 & S2 & F2).
  repeat split; try congruence.
  exists (l1 ++ l2). rewrite S2, S1, app_assoc. split; [reflexivity|].
  apply Forall_app; auto.
Qed.

Lemma is_ring_paint_within (rect : Rect) (o : R) (p : paint) :
  is_ring_paint rect o p -> fill_within rect p.
Proof.
  destruct p as [| [css|g] x y w h |]; cbn; try contradiction.
  intros (A & B & C & D & _). auto.
Qed.

Lemma drawRect_extends (g : style) (r : Rect) (c : Context) :
  extends (fill_within r) c (drawRect g r c).
Proof.
  destruct (drawRect_attrs g r c) as (_ & W & H).
  repeat split; try assumption.
  rewrite drawRect_surface. eexists; split; [reflexivity|].
  destruct (all_finite _ _ _ _); repeat constructor.
Qed.

Lemma set_lineWidth_extends (P : paint -> Prop) (v : num) (c : Context) :
  extends P c (set_lineWidth v c).
Proof.
  unfold set_lineWidth. destruct (_ && _); [|apply extends_refl].
  repeat split. exists []. cbn. rewrite app_nil_r. auto.
Qed.

Lemma drawLine_extends (r : Rect) (x0 y0 x1 y1 : num) (c : Context) :
  extends (fill_within r) c (drawLine x0 y0 x1 y1 c).
Proof.
  unfold drawLine, stroke, emit, lineTo, moveTo, beginPath, setLineDash.
  cbn [forallb].
  destruct (is_finite x0 && is_finite y0), (is_finite x1 && is_finite y1);
    cbn; repeat split; eexists; (split; [reflexivity|]);
    repeat constructor.
Qed.

Lemma drawGuides_extends (r frameRect : Rect) (frameWidth : num) (c : Context) :
  extends (fill_within r) c (drawGuides frameRect frameWidth c).
Proof.
  unfold drawGuides.
  repeat first [ eapply extends_trans; [|apply drawLine_extends]
               | eapply extends_trans; [|apply set_lineWidth_extends] ].
  apply extends_refl.
Qed.

(** A ring target at a finite centre, of real radius. *)
Lemma target_finite_extends (fuel : nat) (x y o : R) (rect : Rect)
  (c : Context) :
  (ring_bound o <= fuel)%nat ->
  exists c', drawTargetMoire fuel (Fin x) (Fin y) (Fin o) rect c = Done c'
             /\ extends (fill_within rect) c c'.
Proof.
  intros Hf. destruct (drawTargetMoire_total fuel x y o rect c Hf) as (c' & E).
  exists c'. split; [exact E|].
  destruct (drawTargetMoire_effect _ _ _ _ _ _ _ E)
    as ((W & H & _) & l & S & F).
  repeat split; try assumption. exists l. split; [exact S|].
  eapply Forall_impl; [|exact F]. intros p. apply is_ring_paint_within.
Qed.

(** On a rect of real width and height [h >= 0] the corner radius is [NaN]
    or a real at most [h / 2]. *)
Lemma cornerTargetRad_cases (x y : num) (w h : R) :
  0 <= h ->
  cornerTargetRad (mkRect x y (Fin w) (Fin h)) = NaN
  \/ exists r, cornerTargetRad (mkRect x y (Fin w) (Fin h)) = Fin r
               /\ r <= h / 2.
Proof.
  intros Hh. unfold cornerTargetRad, getCornerTargetSize, Math_PI. nsimpl.
  destruct (ndiv (Fin (- (h / 2 - w / 2))) (Fin (h / 2))) as [t| | |];
    cbn [Math_asin]; try (left; reflexivity).
  destruct (R_leb (-1) t && R_leb t 1); [|left; reflexivity].
  right. nsimpl. eexists; split; [reflexivity|].
  pose proof (SIN_bound (PI / 4 - asin t)) as [S0 _]. nra.
Qed.

Lemma ring_bound_mono (a b : R) : a <= b -> (ring_bound a <= ring_bound b)%nat.
Proof.
  intros H. unfold ring_bound. apply Zfloor_le in H. lia.
Qed.

Lemma ring_bound_half (H : Z) :
  (0 <= H)%Z -> (ring_bound (IZR H / 2) <= table_bound H)%nat.
Proof.
  intros HH. unfold ring_bound, table_bound.
  rewrite (Zfloor_IZR_div H 2) by lia.
  assert (H / 2 <= H)%Z by (apply Z.div_le_upper_bound; lia). lia.
Qed.

(** Each of the five targets of a frame of height [H >= 0] returns. *)
Lemma target_call_extends (fuel : nat) (bw fw H : Z) (k : target_call)
  (c : Context) :
  let frameRect := mkRect (num_of_Z bw) (Fin 0) (num_of_Z fw) (num_of_Z H) in
  (0 <= H)%Z -> (table_bound H <= fuel)%nat ->
  In k (targetCalls frameRect) ->
  exists c', drawTargetMoire fuel (call_x k) (call_y k) (call_outR k)
                             (call_rect k) c = Done c'
             /\ extends (fill_within frameRect) c c'.
Proof.
  intros fr HH Hf Hin.
  assert (HR : 0 <= IZR H) by (apply IZR_le; exact HH).
  pose proof (ring_bound_half H HH) as Hb.
  unfold targetCalls in Hin.
  destruct (cornerTargetRad_cases (num_of_Z bw) (Fin 0) (IZR fw) (IZR H) HR)
    as [E|(r & E & Hr)];
    fold (num_of_Z fw) in E; fold (num_of_Z H) in E; fold fr in E;
    rewrite E in Hin; cbn [In] in Hin.
  - destruct Hin as [<-|[<-|[<-|[<-|[<-|[]]]]]];
      cbn [call_x call_y call_outR call_rect].
    + unfold fr. nsimpl. apply target_finite_extends. lia.
    + destruct fuel as [|n]; [unfold table_bound in Hf; lia|].
      rewrite drawTargetMoire_NaN.
      eexists; split; [reflexivity|apply extends_refl].
    + destruct fuel as [|n]; [unfold table_bound in Hf; lia|].
      rewrite drawTargetMoire_NaN.
      eexists; split; [reflexivity|apply extends_refl].
    + destruct fuel as [|n]; [unfold table_bound in Hf; lia|].
      rewrite drawTargetMoire_NaN.
      eexists; split; [reflexivity|apply extends_refl].
    + destruct fuel as [|n]; [unfold table_bound in Hf; lia|].
      rewrite drawTargetMoire_NaN.
      eexists; split; [reflexivity|apply extends_refl].
  - pose proof (ring_bound_mono r (IZR H / 2) Hr) as Hm.
    destruct Hin as [<-|[<-|[<-|[<-|[<-|[]]]]]];
      cbn [call_x call_y call_outR call_rect];
      unfold fr; nsimpl; apply target_finite_extends; lia.
Qed.

Lemma runTargets_extends (fuel : nat) (rect : Rect) (calls : list target_call) :
  (forall k c, In k calls ->
               exists c', drawTargetMoire fuel (call_x k) (call_y k)
                                          (call_outR k) (call_rect k) c
                                          = Done c'
                          /\ extends (fill_within rect) c c') ->
  forall c, exists c', runTargets fuel calls c = Done c'
                       /\ extends (fill_within rect) c c'.
Proof.
  induction calls as [|k rest IH]; intros Hall c; cbn [runTargets].
  - exists c. split; [reflexivity|apply extends_refl].
  - destruct (Hall k c (or_introl eq_refl)) as (c1 & E1 & X1).
    rewrite E1. cbn [bind].
    destruct (IH (fun k' c' Hk => Hall k' c' (or_intror Hk)) c1)
      as (c2 & E2 & X2).
    exists c2. split; [exact E2|]. eapply extends_trans; eassumption.
Qed.

(** On a canvas of height [H >= 0], [drawTable] returns: the surface holds
    the black background and, after it, fills of the frame only. *)
Lemma drawTable_total (fuel : nat) (c : Context) :
  (0 <= canvas_height c)%Z ->
  (table_bound (canvas_height c) <= fuel)%nat ->
  let canvasWidth := num_of_Z (canvas_width c) in
  let canvasHeight := num_of_Z (canvas_height c) in
  exists c' rest,
    drawTable fuel c = Done c'
    /\ canvas_width c' = canvas_width c
    /\ canvas_height c' = canvas_height c
    /\ surface c'
       = FillRect (Color "#000") (Fin 0) (Fin 0) canvasWidth canvasHeight
         :: rest
    /\ Forall (fill_within (frameLayout canvasWidth canvasHeight)) rest.
Proof.
  intros HH Hf cw ch. unfold drawTable. fold cw ch.
  destruct (clearRect_whole c) as (S0 & W0 & H0). cbv zeta in S0, W0, H0.
  fold cw ch in S0, W0, H0.
  set (d := clearRect _ _ _ _ c) in *.
  set (fr := frameLayout cw ch).
  set (c1 := drawRect (Color "#000") _ d).
  assert (S1 : surface c1 = [FillRect (Color "#000") (Fin 0) (Fin 0) cw ch]
               /\ canvas_width c1 = canvas_width c
               /\ canvas_height c1 = canvas_height c).
  { unfold c1. rewrite drawRect_surface, S0.
    destruct (drawRect_attrs (Color "#000") (mkRect (Fin 0) (Fin 0) cw ch) d)
      as (_ & W1 & H1).
    split; [reflexivity|]. split; congruence. }
  destruct S1 as (S1 & W1 & H1).
  pose proof (drawRect_extends (Color "#fff") fr c1) as X2.
  set (c2 := drawRect (Color "#fff") fr c1) in *.
  assert (Efr : fr = mkRect (num_of_Z ((canvas_width c
                                         - canvas_height c * 4 / 3) / 2))
                            (Fin 0) (num_of_Z (canvas_height c * 4 / 3))
                            (num_of_Z (canvas_height c)))
    by apply frameLayout_Z.
  (* the line moire *)
  destruct (cellSize_cases (Fin (IZR (canvas_height c)))) as (cs & Ecs & Hcs).
  assert (Hpos : 1 <= cs) by (destruct Hcs; lra).
  assert (X3 : exists c3, drawChessMoire fuel c2 fr = Done c3
                          /\ extends (fill_within fr) c2 c3).
  { rewrite Efr. unfold num_of_Z.
    destruct (drawChessMoire_lines fuel c2
                (IZR ((canvas_width c - canvas_height c * 4 / 3) / 2))
                (IZR (canvas_height c * 4 / 3))
                (IZR (canvas_height c)) cs (Fin 0) Ecs Hpos)
      as (c3 & E3 & _ & W3 & H3 & _ & S3).
    { pose proof (spec_chessCount_bound (IZR (canvas_height c)) cs Hpos) as B.
      unfold chess_bound in B. rewrite ZfloorZ in B.
      unfold table_bound in Hf. lia. }
    exists c3. split; [exact E3|]. repeat split; try assumption.
    eexists; split; [exact S3|].
    apply Forall_forall. intros p Hp. apply in_map_iff in Hp.
    destruct Hp as (k & <- & _). exact I. }
  destruct X3 as (c3 & E3 & X3). rewrite E3. cbn [bind].
  (* the ring targets *)
  destruct (runTargets_extends fuel fr (targetCalls fr)) with (c := c3)
    as (c4 & E4 & X4).
  { intros k c0 Hk. rewrite Efr in Hk |- *.
    apply target_call_extends; assumption. }
  rewrite E4. cbn [bind].
  (* the guide lines *)
  pose proof (drawGuides_extends fr fr (width fr) c4) as X5.
  set (c5 := drawGuides fr (width fr) c4) in *.
  assert (X : extends (fill_within fr) c1 c5).
  { eapply extends_trans; [exact X2|]. eapply extends_trans; [exact X3|].
    eapply extends_trans; [exact X4|exact X5]. }
  destruct X as (W5 & H5 & l & S5 & F5).
  exists c5, l. split; [reflexivity|]. repeat split; try congruence.
  rewrite S5, S1. reflexivity.
Qed.

(** More fuel does not change a result. *)
Lemma iterate_done_mono {S : Type} (body : S -> flow S) (n m : nat) (s r : S) :
  iterate n body s = Done r -> (n <= m)%nat -> iterate m body s = Done r.
Proof.
  intros E Hle. rewrite (iterate_ge body n m s Hle); [exact E|congruence].
Qed.

Lemma drawChessMoire_mono (n m : nat) (c c' : Context) (rect : Rect) :
  drawChessMoire n c rect = Done c' -> (n <= m)%nat ->
  drawChessMoire m c rect = Done c'.
Proof.
  unfold drawChessMoire. intros E Hle.
  destruct (iterate n _ _) as [r| |] eqn:I; cbn in E; try discriminate.
  rewrite (iterate_done_mono _ n m _ r I Hle). exact E.
Qed.

Lemma drawTargetMoire_mono (n m : nat) (x y outR : num) (rect : Rect)
  (c c' : Context) :
  drawTargetMoire n x y outR rect c = Done c' -> (n <= m)%nat ->
  drawTargetMoire m x y outR rect c = Done c'.
Proof.
  unfold drawTargetMoire. intros E Hle.
  destruct (iterate n _ _) as [r| |] eqn:I; cbn in E; try discriminate.
  rewrite (iterate_done_mono _ n m _ r I Hle). exact E.
Qed.

Lemma runTargets_mono (n m : nat) (calls : list target_call) (c c' : Context) :
  runTargets n calls c = Done c' -> (n <= m)%nat ->
  runTargets m calls c = Done c'.
Proof.
  revert c. induction calls as [|k rest IH]; intros c E Hle; cbn in *.
  - exact E.
  - destruct (drawTargetMoire n _ _ _ _ c) as [c1| |] eqn:D; cbn in E;
      try discriminate.
    rewrite (drawTargetMoire_mono n m _ _ _ _ _ _ D Hle). cbn. auto.
Qed.

Lemma drawTable_mono (n m : nat) (c c' : Context) :
  drawTable n c = Done c' -> (n <= m)%nat -> drawTable m c = Done c'.
Proof.
  unfold drawTable. intros E Hle.
  destruct (drawChessMoire n _ _) as [c3| |] eqn:D3; cbn [bind] in E;
    try discriminate.
  rewrite (drawChessMoire_mono n m _ _ _ D3 Hle). cbn [bind].
  destruct (runTargets n _ c3) as [c4| |] eqn:D4; cbn [bind] in E;
    try discriminate.
  rewrite (runTargets_mono n m _ _ _ D4 Hle). cbn [bind]. exact E.
Qed.

(** C7: the image [drawTable] leaves is a function of the size of the
    canvas alone: for every size there is one context [img], beginning with
    the full black fill, that every call on a canvas of that size returns,
    whatever the context held before; a second call in succession returns
    [img] again. *)
Theorem drawTable_idempotent (W H : Z) :
  (0 <= H)%Z ->
  exists img rest,
    canvas_width img = W /\ canvas_height img = H
    /\ surface img
       = FillRect (Color "#000") (Fin 0) (Fin 0) (num_of_Z W) (num_of_Z H)
         :: rest
    /\ forall fuel c,
        canvas_width c = W -> canvas_height c = H ->
        (table_bound H <= fuel)%nat ->
        drawTable fuel c = Done img
        /\ (c' <- drawTable fuel c ;; drawTable fuel c') = Done img.
Proof.
  intros HH.
  pose (c0 := mkContext W H (Color "") (Color "") (Fin 1) [] [] []).
  destruct (drawTable_total (table_bound H) c0 HH (Nat.le_refl _))
    as (img & rest & E & Wi & Hi & Si & _).
  cbn [canvas_width canvas_height c0] in Wi, Hi, Si.
  exists img, rest. split; [exact Wi|]. split; [exact Hi|]. split; [exact Si|].
  assert (A : forall fuel c, canvas_width c = W -> canvas_height c = H ->
                             (table_bound H <= fuel)%nat ->
                             drawTable fuel c = Done img).
  { intros fuel c Wc Hc Hf.
    rewrite (drawTable_deterministic fuel c c0) by (cbn; assumption).
    apply (drawTable_mono (table_bound H)); assumption. }
  intros fuel c Wc Hc Hf. rewrite (A fuel c Wc Hc Hf). split; [reflexivity|].
  cbn [bind]. apply A; assumption.
Qed.

Lemma drawTable_idempotent_witness :
  (0 <= 900)%Z
  /\ exists img,
      drawTable (table_bound 900)
                (mkContext 1200 900 (Color "red") (Color "blue") (Fin 7)
                           [Fin 1] [MoveTo (Fin 2) (Fin 3)] [])
      = Done img.
Proof.
  assert (H : (0 <= 900)%Z) by lia.
  split; [exact H|].
  destruct (drawTable_idempotent 1200 900 H) as (img & rest & _ & _ & _ & A).
  exists img.
  exact (proj1 (A (table_bound 900)
                  (mkContext 1200 900 (Color "red") (Color "blue") (Fin 7)
                             [Fin 1] [MoveTo (Fin 2) (Fin 3)] [])
                  eq_refl eq_refl (Nat.le_refl _))).
Defined.

(** ** The 1200 by 900 table, by hand *)

(** The centre target starts at [startR = 18]: its first turn paints the
    ring from radius 13 to radius 36 over the frame and moves to
    [curR = 36]. *)
Example center_target_first_ring (c : Context) :
  let frameRect := mkRect (Fin 0) (Fin 0) (Fin 1200) (Fin 900) in
  let startR := ring_startR (Fin 450) frameRect in
  startR = Fin 18
  /\ exists g,
      ring_turn (Fin 600) (Fin 450) (Fin 450) startR
                (ring_q (Fin 450) startR) frameRect (mkRing startR 1 c)
      = Next (mkRing (Fin 36) 2
                     (fillRect (Fin 0) (Fin 0) (Fin 1200) (Fin 900)
                               (set_fillStyle (Gradient g) c)))
      /\ g_r0 g = Fin 13 /\ g_r1 g = Fin 36.
Proof.
  cbv zeta.
  assert (E : ring_startR (Fin 450)
                          (mkRect (Fin 0) (Fin 0) (Fin 1200) (Fin 900))
              = Fin 18).
  { unfold ring_startR. nsimpl.
    rewrite (Zfloor_IZR_div 900 50) by lia.
    change (900 / 50)%Z with 18%Z. nsimpl.
    replace (nlt (Fin (450 / 18)) (Fin 20)) with false
      by (symmetry; apply R_ltb_false; lra).
    reflexivity. }
  rewrite E. split; [reflexivity|].
  assert (P : prgValue_at (Fin 18) (ring_q (Fin 450) (Fin 18)) 1 = Fin 18).
  { unfold prgValue_at, num_of_Z. rewrite nsub_Fin. unfold Math_pow.
    replace (R_eqb (1 - 1) 0) with true by (symmetry; apply R_eqb_true; lra).
    cbn [nmul]. f_equal. lra. }
  unfold ring_turn. cbn [curR step ring_ctx topLeftX topLeftY width height].
  rewrite P. cbn [nadd nsub nneg ngt nlt nle].
  replace (R_leb 18 450) with true by (symmetry; apply R_leb_true; lra).
  replace (R_ltb 450 (18 + 18)) with false
    by (symmetry; apply R_ltb_false; lra).
  replace (R_leb 18 1) with false by (symmetry; apply R_leb_false; lra).
  replace (R_ltb 18 5) with false by (symmetry; apply R_ltb_false; lra).
  cbn [negb]. unfold generateRingGradient, createRadialGradient.
  cbn [is_finite andb negb nlt orb].
  replace (R_ltb (18 + - (5)) 0) with false
    by (symmetry; apply R_ltb_false; lra).
  replace (R_ltb (18 + 18) 0) with false
    by (symmetry; apply R_ltb_false; lra).
  cbn [orb]. eexists. split; [|split].
  - replace (18 + 18) with 36 by lra. reflexivity.
  - cbn. f_equal. lra.
  - reflexivity.
Qed.

(** Its height being even, the cell size is 8 and the moire has 113
    lines. *)
Example chess_900 :
  nmul (getPPLineWidth (num_of_Z 900)) (Fin 2) = Fin (4 * 2)
  /\ spec_chessCount 900 8 = 113%nat.
Proof.
  split.
  - rewrite getPPLineWidth_Z. reflexivity.
  - unfold spec_chessCount.
    replace ((900 - 8 / 2) / 8) with (IZR 112) by lra.
    rewrite ZfloorZ. reflexivity.
Qed.

(** ** Outside the real numbers

    The bounds above are for a real [outR] and a real [rect.height].  At
    [+Infinity], which [drawTable] never passes, neither loop ends. *)



Remark chess_loop_at_infinity (fuel : nat) (x y w : num) (c : Context) :
  drawChessMoire fuel c (mkRect x y w PInf) = Timeout.
Proof.
  unfold drawChessMoire. cbn [height].
  destruct (cellSize_cases PInf) as (cs & -> & Hcs).
  rewrite ndiv_Fin by lra.
  set (c0 := setLineDash _ _). clearbody c0.
  assert (L : forall n l off c1,
             iterate n (chess_turn (Fin cs) (mkRect x y w PInf))
                     (mkChess (Fin l) off c1) = Timeout).
  { induction n as [|n IH]; intros l off c1; [reflexivity|].
    cbn [iterate]. unfold chess_turn at 1. cbn [lineY height nle negb nadd].
    apply IH. }
  rewrite L. reflexivity.
Qed.


(** * Further properties *)

(** ** The frame *)

(** X1: whatever the size of the canvas, the frame is as high as the
    canvas, its width [w] is the integer with [3 * w <= 4 * H < 3 * w + 3],
    and the margin to its right is the one to its left or one pixel
    more. *)
Theorem frame_centred_four_thirds (W H : Z) :
  exists left w : Z,
    frameLayout (num_of_Z W) (num_of_Z H)
    = mkRect (num_of_Z left) (Fin 0) (num_of_Z w) (num_of_Z H)
    /\ (3 * w <= 4 * H < 3 * w + 3)%Z
    /\ (let right := W - (left + w) in right = left \/ right = left + 1)%Z.
Proof.
  rewrite frameLayout_Z. do 2 eexists. split; [reflexivity|].
  split.
  - pose proof (Z.div_mod (H * 4) 3 ltac:(lia)) as E.
    pose proof (Z.mod_pos_bound (H * 4) 3 ltac:(lia)). lia.
  - cbv zeta. set (w := (H * 4 / 3)%Z).
    pose proof (Z.div_mod (W - w) 2 ltac:(lia)) as E.
    pose proof (Z.mod_pos_bound (W - w) 2 ltac:(lia)). lia.
Qed.

(** X2: on a canvas of positive height each of the five ring targets is
    drawn over the frame, has a real centre and a real radius, and its
    disc lies within the frame. *)
Theorem targets_within_frame (W H : Z) :
  (0 < H)%Z ->
  let frameRect := frameLayout (num_of_Z W) (num_of_Z H) in
  Forall (fun k => call_rect k = frameRect
                   /\ disc_within frameRect (call_x k) (call_y k) (call_outR k))
         (targetCalls frameRect).
Proof.
  intros HH. cbv zeta.
  destruct (frame_proportions W H HH) as (bw & fw & E & B & Hpos).
  rewrite E. unfold targetCalls.
  destruct (corner_radius_bounds (num_of_Z bw) (Fin 0) (IZR fw) (IZR H))
    as (r & Er & R0 & R1); try lra.
  fold (num_of_Z fw) in Er. fold (num_of_Z H) in Er. rewrite Er.
  repeat constructor; cbn [call_x call_y call_outR call_rect];
    unfold disc_within; nsimpl;
    do 7 eexists; repeat (split; [reflexivity|]); lra.
Qed.

Lemma targets_within_frame_witness :
  (0 < 900)%Z
  /\ Forall (fun k => disc_within (frameLayout (num_of_Z 1200) (num_of_Z 900))
                                  (call_x k) (call_y k) (call_outR k))
            (targetCalls (frameLayout (num_of_Z 1200) (num_of_Z 900))).
Proof.
  assert (H : (0 < 900)%Z) by lia.
  split; [exact H|].
  eapply Forall_impl; [|exact (targets_within_frame 1200 900 H)].
  intros k [_ D]. exact D.
Defined.

(** ** More on the ring target *)

(** A first turn that does not stop has [startR >= 5] and [outR >= 50];
    [startR] is then either [floor (rect.height / 50)], with
    [outR >= 20 * startR], or [outR / 10], with [outR < 0.4 * rect.height]. *)
Lemma ring_first_turn_needs (x y : num) (o : R) (rect : Rect) (c : Context) :
  let startR := ring_startR (Fin o) rect in
  ring_turn x y (Fin o) startR (ring_q (Fin o) startR) rect (mkRing startR 1 c)
  <> Stop (mkRing startR 1 c) ->
  exists s0, startR = Fin s0 /\ 5 <= s0 /\ 10 * s0 <= o
             /\ (forall h, height rect = Fin h -> 0 < h ->
                           (50 * s0 <= h /\ 20 * s0 <= o
                            /\ s0 = IZR (Zfloor (h / 50)))
                           \/ (s0 = o / 10 /\ 5 * o < 2 * h)).
Proof.
  cbv zeta. intros G. apply ring_turn_guards in G.
  destruct G as (c0 & Ec & B & _). cbn [curR] in Ec.
  exists c0. split; [exact Ec|]. split; [lra|].
  unfold ring_startR in Ec.
  destruct (nlt (ndiv (Fin o) (Math_floor (ndiv (height rect) (Fin 50))))
                (Fin 20)) eqn:T.
  - rewrite ndiv_Fin in Ec by lra. injection Ec as Ec. split; [lra|].
    intros h Eh Hh. right. split; [lra|].
    rewrite Eh, ndiv_Fin in T by lra. cbn [Math_floor] in T.
    pose proof (Zfloor_bound (h / 50)) as [L _].
    set (z := Zfloor (h / 50)) in *.
    assert (Hz : (0 <= z)%Z).
    { apply Zfloor_lub. apply Rdiv_lower; lra. }
    destruct (Z.eq_dec z 0) as [Ez|Ez].
    + rewrite Ez in T. cbn in T.
      replace (R_eqb 0 0) with true in T by (symmetry; apply R_eqb_true; lra).
      replace (R_eqb o 0) with false in T
        by (symmetry; apply R_eqb_false; lra).
      unfold inf_signed in T.
      replace (R_ltb 0 o) with true in T by (symmetry; apply R_ltb_true; lra).
      discriminate.
    + assert (Hz1 : 1 <= IZR z) by (apply IZR_le; lia).
      rewrite ndiv_Fin in T by lra. cbn in T. apply R_ltb_true in T.
      assert (E : o = o / IZR z * IZR z) by (field; lra).
      assert (E2 : h = h / 50 * 50) by (field; lra).
      nra.
  - rewrite Ec in T. rewrite ndiv_Fin in T by lra. cbn in T.
    apply R_ltb_false in T.
    assert (20 * c0 <= o).
    { assert (E : o = o / c0 * c0) by (field; lra). rewrite E. nra. }
    split; [lra|]. intros h Eh Hh. left. rewrite Eh in Ec.
    rewrite ndiv_Fin in Ec by lra. cbn in Ec. injection Ec as Ec.
    pose proof (Zfloor_bound (h / 50)) as [L _]. rewrite Ec in L.
    assert (E : h = h / 50 * 50) by (field; lra).
    repeat split; lra.
Qed.

(** Below these sizes the first turn leaves the loop. *)
Lemma drawTargetMoire_small (fuel : nat) (x y : num) (o : R)
  (rect : Rect) (c : Context) :
  o < 50
  \/ (exists h, height rect = Fin h /\ 0 < h < 250 /\ 2 * h <= 5 * o) ->
  drawTargetMoire (S fuel) x y (Fin o) rect c = Done c.
Proof.
  intros Hsmall. unfold drawTargetMoire. cbn [iterate].
  set (startR := ring_startR (Fin o) rect).
  assert (N : ring_turn x y (Fin o) startR (ring_q (Fin o) startR) rect
                        (mkRing startR 1 c) = Stop (mkRing startR 1 c)).
  { destruct (ring_turn x y (Fin o) startR (ring_q (Fin o) startR) rect
                        (mkRing startR 1 c)) as [s|s|e] eqn:E.
    - exfalso.
      destruct (ring_first_turn_needs x y o rect c)
        as (s0 & _ & B5 & B10 & Bh); [fold startR; congruence|].
      destruct Hsmall as [Ho|(h & Eh & Hh & Ho)]; [lra|].
      destruct (Bh h Eh) as [(? & ? & ?)|(? & ?)]; lra.
    - apply ring_turn_stop_same in E. subst s. reflexivity.
    - exfalso.
      destruct (ring_first_turn_needs x y o rect c)
        as (s0 & _ & B5 & B10 & Bh); [fold startR; congruence|].
      destruct Hsmall as [Ho|(h & Eh & Hh & Ho)]; [lra|].
      destruct (Bh h Eh) as [(? & ? & ?)|(? & ?)]; lra. }
  rewrite N. reflexivity.
Qed.

(** X3: [drawTargetMoire] paints nothing, and returns the context it
    received, when [outR < 50], and also when [rect.height] is a real
    above 0 and below 250 and [outR >= 0.4 * rect.height]: the first ring
    needs [startR >= 5], and [startR] is [outR / 10] or
    [floor (rect.height / 50)]. *)
Theorem no_rings_on_small_targets (fuel : nat) (x y : num) (o : R)
  (rect : Rect) (c : Context) :
  o < 50
  \/ (exists h, height rect = Fin h /\ 0 < h < 250 /\ 2 * h <= 5 * o) ->
  drawTargetMoire (S fuel) x y (Fin o) rect c = Done c.
Proof. apply drawTargetMoire_small. Qed.

Lemma no_rings_on_small_targets_witness :
  drawTargetMoire 1 (Fin 20) (Fin 20) (Fin 40)
                  (mkRect (Fin 0) (Fin 0) (Fin 400) (Fin 300))
                  (mkContext 400 300 (Color "#fff") (Color "#000") (Fin 1)
                             [] [] [])
  = Done (mkContext 400 300 (Color "#fff") (Color "#000") (Fin 1) [] [] []).
Proof.
  apply no_rings_on_small_targets. left. lra.
Defined.

(** [(1 / s) ^ t = s ^ (- t)] *)
Lemma Rpower_inv_base (s t : R) : 0 < s -> Rpower (1 / s) t = Rpower s (- t).
Proof.
  intros Hs. unfold Rpower. rewrite Rdiv_1_l, ln_Rinv by assumption.
  f_equal. lra.
Qed.

(** The width of the ring of step [step], in closed form. *)
Lemma prgValue_closed (s0 o : R) (step : Z) :
  0 < s0 -> 0 < o ->
  prgValue_at (Fin s0) (ring_q (Fin o) (Fin s0)) step
  = Fin (Rpower s0 (1 - (IZR step - 1) * 5 / o)).
Proof.
  intros Hs Ho. unfold prgValue_at, ring_q. nsimpl.
  assert (Ho5 : 0 < o / 5) by (apply Rdiv_lower_lt; lra).
  assert (He : 0 < 1 / (o / 5)) by (apply Rdiv_lower_lt; lra).
  assert (Hb : 0 < 1 / s0) by (apply Rdiv_lower_lt; lra).
  unfold Math_pow at 2.
  replace (R_eqb (1 / (o / 5)) 0) with false
    by (symmetry; apply R_eqb_false; lra).
  replace (R_eqb (1 / s0) 0) with false by (symmetry; apply R_eqb_false; lra).
  replace (R_ltb 0 (1 / s0)) with true by (symmetry; apply R_ltb_true; lra).
  unfold Math_pow.
  destruct (R_eqb (IZR step - 1) 0) eqn:E0.
  - apply R_eqb_true in E0. cbn [nmul]. rewrite E0. f_equal.
    replace (1 - 0 * 5 / o) with 1 by (field; lra).
    rewrite Rpower_1 by assumption. lra.
  - pose proof (Rpower_pos (1 / s0) (1 / (o / 5))) as Hq.
    replace (R_eqb (Rpower (1 / s0) (1 / (o / 5))) 0) with false
      by (symmetry; apply R_eqb_false; lra).
    replace (R_ltb 0 (Rpower (1 / s0) (1 / (o / 5)))) with true
      by (symmetry; apply R_ltb_true; lra).
    cbn [nmul]. f_equal.
    rewrite Rpower_mult, Rpower_inv_base by assumption.
    rewrite <- (Rpower_1 s0 Hs) at 1. rewrite <- Rpower_plus.
    f_equal. field. lra.
Qed.

Lemma Rpower_gt_1 (s e : R) : 1 < s -> (1 < Rpower s e <-> 0 < e).
Proof.
  intros Hs. rewrite <- (Rpower_O s) at 1 by lra. split.
  - intros H. destruct (Rle_lt_dec e 0) as [Hle|]; [|assumption].
    pose proof (Rle_Rpower s e 0 ltac:(lra) Hle). lra.
  - apply Rpower_lt. assumption.
Qed.

(** ** The rings of a target, one by one *)

Lemma spec_ringWidth_gt_1 (s0 o : R) (k : Z) :
  1 < s0 -> 0 < o ->
  (1 < spec_ringWidth s0 o k <-> (IZR k - 1) * 5 < o).
Proof.
  intros Hs Ho. unfold spec_ringWidth. rewrite Rpower_gt_1 by assumption.
  split; intros H.
  - assert ((IZR k - 1) * 5 / o < 1) by lra.
    assert (E : (IZR k - 1) * 5 = (IZR k - 1) * 5 / o * o) by (field; lra).
    rewrite E. nra.
  - assert ((IZR k - 1) * 5 / o < 1) by (apply Rdiv_upper; lra). lra.
Qed.








(** ** The rings in the terms of the code *)

Lemma prgValue_at_1 (s0 : R) (q : num) : prgValue_at (Fin s0) q 1 = Fin s0.
Proof.
  unfold prgValue_at, num_of_Z. rewrite nsub_Fin. unfold Math_pow.
  replace (R_eqb (1 - 1) 0) with true by (symmetry; apply R_eqb_true; lra).
  cbn [nmul]. f_equal. lra.
Qed.

Lemma ring_width_1 (s0 : R) (q : num) : ring_width (Fin s0) q 1 = s0.
Proof. unfold ring_width. rewrite prgValue_at_1. reflexivity. Qed.

Lemma ring_width_closed (s0 o : R) (k : Z) :
  0 < s0 -> 0 < o ->
  ring_width (Fin s0) (ring_q (Fin o) (Fin s0)) k = spec_ringWidth s0 o k.
Proof.
  intros Hs Ho. unfold ring_width. rewrite prgValue_closed by assumption.
  reflexivity.
Qed.






(** A target whose [startR] is below 5 paints nothing. *)
Lemma target_rings_empty (k : target_call) (l : list paint) (o s0 : R) :
  target_rings k l -> call_outR k = Fin o ->
  ring_startR (Fin o) (call_rect k) = Fin s0 ->
  s0 < 5 -> l = [].
Proof.
  intros (o' & s1 & n & e & Eo & Es & Ch & _ & St) Eo' Es' B5.
  rewrite Eo in Eo'. injection Eo' as ->.
  rewrite Eo, Es' in Es. injection Es as <-.
  inversion Ch; subst; [reflexivity|lra].
Qed.


(** X4: for [startR >= 5] and [0 < outR <= 10^6] the widths
    [startR * Math.pow(q, k - 1)] of the rings begin with [startR] at
    step 1 and shrink from step to step as long as [5 * (k - 1) <= outR + 1];
    the width is above 1, the least that is painted, at every step with
    [5 * (k - 1) <= outR - 1] and below 1 at every step with
    [5 * (k - 1) >= outR + 1]: the test of the width ends a target after
    about [outR / 5] rings.  Over this range the exact widths differ from
    each other and from 1 by more than the rounding of the code. *)
Theorem ring_widths_shrink (s0 o : R) :
  5 <= s0 -> 0 < o <= 1000000 ->
  let w := ring_width (Fin s0) (ring_q (Fin o) (Fin s0)) in
  w 1%Z = s0
  /\ (forall j k, (1 <= j < k)%Z -> (IZR k - 1) * 5 <= o + 1 -> w k < w j)
  /\ (forall k, (1 <= k)%Z -> (IZR k - 1) * 5 + 1 <= o -> 1 < w k)
  /\ (forall k, o + 1 <= (IZR k - 1) * 5 -> w k < 1).
Proof.
  intros Hs [Ho _]. cbv zeta.
  assert (Hs0 : 0 < s0) by lra. assert (Hs1 : 1 < s0) by lra.
  split; [apply ring_width_1|].
  split; [|split].
  - intros j k Hjk _. rewrite !ring_width_closed by assumption.
    unfold spec_ringWidth. apply Rpower_lt; [assumption|].
    destruct Hjk as [_ Hjk]. apply IZR_lt in Hjk.
    assert ((IZR j - 1) * 5 / o < (IZR k - 1) * 5 / o).
    { unfold Rdiv. apply Rmult_lt_compat_r; [apply Rinv_0_lt_compat|]; lra. }
    lra.
  - intros k _ Hk. rewrite ring_width_closed by assumption.
    assert (X : (IZR k - 1) * 5 < o) by lra.
    apply spec_ringWidth_gt_1; assumption.
  - intros k Hk. rewrite ring_width_closed by assumption.
    unfold spec_ringWidth.
    apply Rlt_le_trans with (Rpower s0 0);
      [|rewrite Rpower_O by assumption; lra].
    apply Rpower_lt; [assumption|].
    assert (1 < (IZR k - 1) * 5 / o) by (apply Rdiv_lower_lt; lra). lra.
Qed.

Lemma ring_widths_shrink_witness :
  5 <= 18 /\ 0 < 450 <= 1000000
  /\ ring_width (Fin 18) (ring_q (Fin 450) (Fin 18)) 1 = 18
  /\ 1 < ring_width (Fin 18) (ring_q (Fin 450) (Fin 18)) 90
  /\ ring_width (Fin 18) (ring_q (Fin 450) (Fin 18)) 92 < 1.
Proof.
  assert (H1 : 5 <= 18) by lra. assert (H2 : 0 < 450 <= 1000000) by lra.
  split; [exact H1|]. split; [exact H2|].
  destruct (ring_widths_shrink 18 450 H1 H2) as (W1 & _ & Wb & Wc).
  split; [exact W1|]. split.
  - apply Wb; [lia|lra].
  - apply Wc. lra.
Defined.



(** ** The corner target without trigonometry *)

Lemma sin_quarter_minus_asin (t : R) :
  -1 <= t <= 1 -> sin (PI / 4 - asin t) = (sqrt (1 - Rsqr t) - t) / sqrt 2.
Proof.
  intros Ht. rewrite sin_minus, sin_PI4, cos_PI4, cos_asin, sin_asin
    by assumption.
  field. apply sqrt2_neq_0.
Qed.

Lemma sqrt2_bounds : 1.41 < sqrt 2 < 1.415.
Proof.
  split.
  - rewrite <- (sqrt_square 1.41) by lra. apply sqrt_lt_1_alt. lra.
  - rewrite <- (sqrt_square 1.415) by lra. apply sqrt_lt_1_alt. lra.
Qed.

(** For [0 <= t <= 1/3] the sine lies between 0.42 and 0.71. *)
Lemma sin_corner_bounds (t : R) :
  0 <= t <= 1 / 3 -> 0.42 < sin (PI / 4 - asin t) < 0.71.
Proof.
  intros Ht. rewrite sin_quarter_minus_asin by lra.
  destruct sqrt2_bounds as [L U].
  assert (S1 : 0.94 <= sqrt (1 - Rsqr t)).
  { rewrite <- (sqrt_square 0.94) by lra. apply sqrt_le_1_alt.
    unfold Rsqr. nra. }
  assert (S2 : sqrt (1 - Rsqr t) <= 1).
  { rewrite <- sqrt_1 at 2. apply sqrt_le_1_alt. unfold Rsqr. nra. }
  split.
  - apply Rdiv_lower_lt; nra.
  - apply Rdiv_upper; nra.
Qed.

Lemma corner_radius_tight (x y : num) (w h : R) :
  0 < h -> h <= w -> 3 * w <= 4 * h ->
  exists r, cornerTargetRad (mkRect x y (Fin w) (Fin h)) = Fin r
            /\ r = (h / 2 - (sqrt (w / 2 * (h - w / 2)) - (w / 2 - h / 2))
                              / sqrt 2) / 2
            /\ 0.145 * (h / 2) < r < 0.29 * (h / 2).
Proof.
  intros Hh Hw Hw2.
  unfold cornerTargetRad. rewrite getCornerTargetSize_spec by lra.
  rewrite spec_cornerDiameter_defined by lra.
  set (t := - (h / 2 - w / 2) / (h / 2)).
  assert (Et : t = (w - h) / h) by (unfold t; field; lra).
  assert (B : 0 <= t <= 1 / 3).
  { rewrite Et. split; [apply Rdiv_lower | apply Rdiv_upper_le]; lra. }
  nsimpl. eexists. split; [reflexivity|].
  pose proof (sin_corner_bounds t B) as [S1 S2].
  split; [|nra].
  rewrite sin_quarter_minus_asin by lra.
  assert (Es : h / 2 * sqrt (1 - Rsqr t) = sqrt (w / 2 * (h - w / 2))).
  { rewrite <- (sqrt_square (h / 2)) at 1 by lra.
    rewrite <- sqrt_mult_alt by nra. f_equal.
    rewrite Et. unfold Rsqr. field. lra. }
  rewrite <- Es. rewrite Et. field. split; [apply sqrt2_neq_0|lra].
Qed.

(** X6: for a rect at least as wide as high and at most 4/3 as wide, the
    corner radius is
    [(h/2 - (sqrt (w/2 * (h - w/2)) - (w/2 - h/2)) / sqrt 2) / 2], the
    sine and the arc sine of the code put together, and lies strictly
    between 0.145 and 0.29 times half the height. *)
Theorem cornerTargetRad_algebraic (x y : num) (w h : R) :
  0 < h -> h <= w -> 3 * w <= 4 * h ->
  exists r, cornerTargetRad (mkRect x y (Fin w) (Fin h)) = Fin r
            /\ r = (h / 2 - (sqrt (w / 2 * (h - w / 2)) - (w / 2 - h / 2))
                              / sqrt 2) / 2
            /\ 0.145 * (h / 2) < r < 0.29 * (h / 2).
Proof. apply corner_radius_tight. Qed.

Lemma cornerTargetRad_algebraic_witness :
  0 < 600 /\ 600 <= 800 /\ 3 * 800 <= 4 * 600
  /\ exists r,
      cornerTargetRad (mkRect (Fin 0) (Fin 0) (Fin 800) (Fin 600)) = Fin r
      /\ 0.145 * (600 / 2) < r < 0.29 * (600 / 2).
Proof.
  assert (H1 : 0 < 600) by lra. assert (H2 : 600 <= 800) by lra.
  assert (H3 : 3 * 800 <= 4 * 600) by lra.
  split; [exact H1|]. split; [exact H2|]. split; [exact H3|].
  destruct (cornerTargetRad_algebraic (Fin 0) (Fin 0) 800 600 H1 H2 H3)
    as (r & E & _ & B).
  exists r. split; [exact E|exact B].
Defined.

(** ** Exceptions of the ring target *)

(** A loop throws what one of its turns raised. *)
Lemma iterate_throw {S : Type} (body : S -> flow S) (P : exn -> Prop) :
  (forall s e, body s = Raise e -> P e) ->
  forall n s e, iterate n body s = Throw e -> P e.
Proof.
  intros HR. induction n as [|n IH]; intros s e; cbn.
  - discriminate.
  - destruct (body s) eqn:B; try discriminate.
    + apply IH.
    + intros E. injection E as <-. eapply HR; eassumption.
Qed.

(** The guards of a turn keep the radii of the gradient from being
    negative. *)
Lemma ring_turn_raise (x y outR startR q : num) (rect : Rect)
  (s : ring_state) (e : exn) :
  ring_turn x y outR startR q rect s = Raise e -> e = TypeError.
Proof.
  unfold ring_turn.
  destruct (negb (nle (curR s) outR)); [discriminate|].
  destruct (ngt _ _); [discriminate|].
  destruct (nle (prgValue_at _ _ _) _) eqn:G1; [discriminate|].
  destruct (nlt (curR s) (Fin 5)) eqn:G2; [discriminate|].
  unfold generateRingGradient, createRadialGradient.
  destruct (negb _) eqn:F; [congruence|].
  apply negb_false_iff in F. rewrite !andb_true_iff in F.
  destruct F as (((((_ & _) & F1) & _) & _) & F2).
  destruct (curR s) as [c| | |]; try discriminate.
  destruct (prgValue_at startR q (step s)) as [p| | |]; try discriminate.
  cbn in G1, G2. apply R_leb_false in G1. apply R_ltb_false in G2.
  cbn [nsub nadd nneg nlt].
  replace (R_ltb (c + - (5)) 0) with false
    by (symmetry; apply R_ltb_false; lra).
  replace (R_ltb (c + p) 0) with false
    by (symmetry; apply R_ltb_false; lra).
  cbn [orb]. discriminate.
Qed.

(** At a finite centre and for a real [outR] nothing is thrown, whatever
    the fuel. *)
Lemma drawTargetMoire_finite_no_throw (fuel : nat) (x y o : R) (rect : Rect)
  (c : Context) (e : exn) :
  drawTargetMoire fuel (Fin x) (Fin y) (Fin o) rect c <> Throw e.
Proof.
  unfold drawTargetMoire.
  set (body := ring_turn _ _ _ _ _ _). set (s0 := mkRing _ _ _).
  destruct (iterate fuel body s0) as [r|e'|] eqn:E; cbn [bind];
    try discriminate.
  exfalso. destruct fuel as [|n]; [discriminate|].
  cbn [iterate] in E. destruct (body s0) as [s1|s1|e1] eqn:B.
  - assert (G : body s0 <> Stop s0) by congruence.
    apply ring_turn_guards in G. destruct G as (c0 & Ec & Bc & _).
    cbn [curR s0] in Ec.
    revert E. unfold body. rewrite Ec. apply iterate_no_throw.
    intros s e''. apply ring_turn_no_raise. lra.
  - discriminate.
  - assert (G : body s0 <> Stop s0) by congruence.
    apply ring_turn_guards in G. destruct G as (c0 & Ec & Bc & _).
    cbn [curR s0] in Ec.
    revert B. unfold body. rewrite Ec. apply ring_turn_no_raise. lra.
Qed.

(** X7: the only exception a call of [drawTargetMoire] lets out is the
    TypeError of [createRadialGradient] on an argument that is not finite,
    never the IndexSizeError of a negative radius; and it lets one out only
    when the centre or [outR] is not finite. *)
Theorem drawTargetMoire_throws_TypeError_only (fuel : nat) (x y outR : num)
  (rect : Rect) (c : Context) (e : exn) :
  drawTargetMoire fuel x y outR rect c = Throw e ->
  e = TypeError
  /\ (is_finite x && is_finite y && is_finite outR = false).
Proof.
  intros E. split.
  - unfold drawTargetMoire in E.
    destruct (iterate fuel _ _) as [r|e'|] eqn:I; cbn [bind] in E;
      try discriminate.
    injection E as <-.
    eapply (iterate_throw _ (fun e0 => e0 = TypeError)); [|exact I].
    intros s e0. apply ring_turn_raise.
  - destruct x as [x| | |], y as [y| | |], outR as [o| | |];
      try reflexivity.
    exfalso. revert E. apply drawTargetMoire_finite_no_throw.
Qed.

Lemma drawTargetMoire_throws_TypeError_only_witness :
  drawTargetMoire 1 NaN (Fin 450) (Fin 450)
                  (mkRect (Fin 0) (Fin 0) (Fin 1200) (Fin 900))
                  (mkContext 1200 900 (Color "#fff") (Color "#000") (Fin 1)
                             [] [] [])
  = Throw TypeError
  /\ TypeError = TypeError
  /\ is_finite NaN && is_finite (Fin 450) && is_finite (Fin 450) = false.
Proof.
  assert (T : drawTargetMoire 1 NaN (Fin 450) (Fin 450)
                (mkRect (Fin 0) (Fin 0) (Fin 1200) (Fin 900))
                (mkContext 1200 900 (Color "#fff") (Color "#000") (Fin 1)
                           [] [] [])
              = Throw TypeError).
  { unfold drawTargetMoire.
    assert (E : ring_startR (Fin 450)
                            (mkRect (Fin 0) (Fin 0) (Fin 1200) (Fin 900))
                = Fin 18).
    { unfold ring_startR. nsimpl.
      rewrite (Zfloor_IZR_div 900 50) by lia.
      change (900 / 50)%Z with 18%Z. nsimpl.
      replace (nlt (Fin (450 / 18)) (Fin 20)) with false
        by (symmetry; apply R_ltb_false; lra).
      reflexivity. }
    rewrite E.
    assert (P : prgValue_at (Fin 18) (ring_q (Fin 450) (Fin 18)) 1 = Fin 18).
    { unfold prgValue_at, num_of_Z. rewrite nsub_Fin. unfold Math_pow.
      replace (R_eqb (1 - 1) 0) with true
        by (symmetry; apply R_eqb_true; lra).
      cbn [nmul]. f_equal. lra. }
    cbn [iterate]. unfold ring_turn.
    cbn [curR step ring_ctx topLeftX topLeftY width height].
    rewrite P. cbn [nadd nsub nneg ngt nlt nle].
    replace (R_leb 18 450) with true by (symmetry; apply R_leb_true; lra).
    replace (R_ltb 450 (18 + 18)) with false
      by (symmetry; apply R_ltb_false; lra).
    replace (R_leb 18 1) with false by (symmetry; apply R_leb_false; lra).
    replace (R_ltb 18 5) with false by (symmetry; apply R_ltb_false; lra).
    cbn [negb]. reflexivity. }
  split; [exact T|].
  exact (drawTargetMoire_throws_TypeError_only _ _ _ _ _ _ _ T).
Defined.

(** ** Line widths of every number *)

Lemma Ztrunc_IZR (k : Z) : Ztrunc (IZR k) = k.
Proof.
  unfold Ztrunc. destruct (R_leb 0 (IZR k)).
  - apply ZfloorZ.
  - unfold Zceil. rewrite <- opp_IZR, ZfloorZ. lia.
Qed.

(** X8: for every number, special values included, [getPPLineWidth]
    returns 3 or 4; it returns 4 exactly for the even integers, for the
    infinities and for [NaN], whose remainder is [NaN]. *)
Theorem getPPLineWidth_every_number (v : num) :
  (getPPLineWidth v = Fin 3 \/ getPPLineWidth v = Fin 4)
  /\ (getPPLineWidth v = Fin 4
      <-> match v with
          | Fin r => exists k : Z, r = 2 * IZR k
          | _ => True
          end).
Proof.
  split; [apply getPPLineWidth_cases|].
  unfold getPPLineWidth. destruct v as [r| | |]; cbn [nrem truthy];
    try (split; [intros _; exact I|reflexivity]).
  replace (R_eqb 2 0) with false by (symmetry; apply R_eqb_false; lra).
  cbn [truthy]. split.
  - destruct (R_eqb _ 0) eqn:E; cbn [negb]; intros X;
      [|injection X as X; lra].
    apply R_eqb_true in E. exists (Ztrunc (r / 2)). lra.
  - intros [k ->].
    replace (2 * IZR k / 2) with (IZR k) by (field; lra).
    rewrite Ztrunc_IZR.
    replace (R_eqb (2 * IZR k - 2 * IZR k) 0) with true
      by (symmetry; apply R_eqb_true; lra).
    reflexivity.
Qed.

(** ** The guide lines *)

Lemma set_lineWidth_pp (v : num) (c : Context) :
  set_lineWidth (getPPLineWidth v) c
  = mkContext (canvas_width c) (canvas_height c) (fillStyle c)
              (strokeStyle c) (getPPLineWidth v) (lineDash c) (path c)
              (surface c).
Proof.
  unfold set_lineWidth.
  destruct (getPPLineWidth_cases v) as [-> | ->]; cbn [is_finite nlt andb].
  - replace (R_ltb 0 3) with true by (symmetry; apply R_ltb_true; lra).
    reflexivity.
  - replace (R_ltb 0 4) with true by (symmetry; apply R_ltb_true; lra).
    reflexivity.
Qed.

(** A line between finite points: one solid black stroke of the current
    width; the dash pattern is left empty and the path is the line. *)
Lemma drawLine_finite (x0 y0 x1 y1 : R) (c : Context) :
  drawLine (Fin x0) (Fin y0) (Fin x1) (Fin y1) c
  = mkContext (canvas_width c) (canvas_height c) (fillStyle c)
              (Color "#000") (lineWidth c) []
              [MoveTo (Fin x0) (Fin y0); LineTo (Fin x1) (Fin y1)]
              (surface c ++ [spec_guide (lineWidth c) x0 y0 x1 y1]).
Proof. reflexivity. Qed.

Lemma drawGuides_surface (x y w h r : R) (frameWidth : num) (c : Context) :
  let rect := mkRect (Fin x) (Fin y) (Fin w) (Fin h) in
  cornerTargetRad rect = Fin r ->
  drawGuides rect frameWidth c
  = mkContext (canvas_width c) (canvas_height c) (fillStyle c)
              (Color "#000") (getPPLineWidth frameWidth) []
              [MoveTo (Fin (x + w - r)) (Fin y);
               LineTo (Fin (x + w - r)) (Fin h)]
              (surface c
               ++ spec_guideLines x y w h r (getPPLineWidth (Fin h))
                                  (getPPLineWidth frameWidth)).
Proof.
  intros rect Er. unfold drawGuides. rewrite Er. unfold rect. nsimpl.
  rewrite !set_lineWidth_pp, !drawLine_finite. cbn.
  rewrite <- !app_assoc. reflexivity.
Qed.

(** X9: over a rect of real data with a real corner radius [r],
    [drawGuides] adds six solid black strokes to the surface: three
    horizontal ones of the line width of the height and three vertical
    ones of the line width of [frameWidth]; the centre of each of the five
    ring targets lies on one of the horizontal and on one of the vertical
    lines.  The two vertical coordinates of the lines are [rect.height / 2]
    and [rect.height]: they are not offset by [topLeftY]. *)
Theorem target_centres_on_guides (x y w h r : R) (frameWidth : num)
  (c : Context) :
  let rect := mkRect (Fin x) (Fin y) (Fin w) (Fin h) in
  let lwH := getPPLineWidth (Fin h) in
  let lwV := getPPLineWidth frameWidth in
  cornerTargetRad rect = Fin r ->
  surface (drawGuides rect frameWidth c)
  = surface c ++ spec_guideLines x y w h r lwH lwV
  /\ Forall (fun k =>
               exists xk yk,
                 call_x k = Fin xk /\ call_y k = Fin yk
                 /\ In (spec_guide lwH x yk (x + w) yk)
                       (surface (drawGuides rect frameWidth c))
                 /\ In (spec_guide lwV xk y xk h)
                       (surface (drawGuides rect frameWidth c)))
            (targetCalls rect).
Proof.
  intros rect lwH lwV Er. subst rect lwH lwV.
  rewrite (drawGuides_surface x y w h r frameWidth c Er).
  cbn [surface]. split; [reflexivity|].
  unfold targetCalls. rewrite Er. nsimpl.
  repeat constructor; cbn [call_x call_y];
    do 2 eexists; (split; [reflexivity|]); (split; [reflexivity|]);
    split; apply in_or_app; right; unfold spec_guideLines; cbn [In]; tauto.
Qed.

Lemma target_centres_on_guides_witness :
  exists r,
    cornerTargetRad (mkRect (Fin 0) (Fin 0) (Fin 800) (Fin 600)) = Fin r
    /\ surface (drawGuides (mkRect (Fin 0) (Fin 0) (Fin 800) (Fin 600))
                           (Fin 800)
                           (mkContext 800 600 (Color "#fff") (Color "#000")
                                      (Fin 1) [] [] []))
       = spec_guideLines 0 0 800 600 r (getPPLineWidth (Fin 600))
                         (getPPLineWidth (Fin 800)).
Proof.
  destruct (corner_radius_tight (Fin 0) (Fin 0) 800 600) as (r & E & _);
    try lra.
  exists r. split; [exact E|].
  exact (proj1 (target_centres_on_guides 0 0 800 600 r (Fin 800)
                  (mkContext 800 600 (Color "#fff") (Color "#000") (Fin 1)
                             [] [] []) E)).
Defined.

(** ** The layers of the table *)














(** ** The About element *)

Lemma forEach_skip {A S : Type} (l : list A) (f : A -> S -> S) (s : S) :
  (forall a s', f a s' = s') -> forEach l f s = s.
Proof.
  intros Hf. unfold forEach. induction l as [|a l IH]; cbn; [reflexivity|].
  rewrite Hf. exact IH.
Qed.

(** X11: whatever the event and its path, also when the path holds the
    About element, the click handler that [hideAbout] installs leaves the
    page with [about.style.display = "none"] and nothing else changed. *)
Theorem hideAbout_hides_on_every_click (event : Event) (p : Page) :
  hideAbout_onclick event p = set_about_style_display "none" p.
Proof.
  unfold hideAbout_onclick.
  destruct (about_style_display p =? "none") eqn:E.
  - apply String.eqb_eq in E. destruct p. cbn in *. subst. reflexivity.
  - rewrite forEach_skip; [reflexivity|].
    intros a s'. destruct (loose_eq _ _); reflexivity.
Qed.

(** X12: after [toggleAbout] the inline display is empty or ["none"];
    toggling twice gives the page back exactly when it was one of the
    two before; toggling three times is toggling once. *)
Theorem toggleAbout_twice (p : Page) :
  (about_style_display (toggleAbout p) = EmptyString
   \/ about_style_display (toggleAbout p) = "none")
  /\ (toggleAbout (toggleAbout p) = p
      <-> about_style_display p = EmptyString \/ about_style_display p = "none")
  /\ toggleAbout (toggleAbout (toggleAbout p)) = toggleAbout p.
Proof.
  destruct p as [cw ch c sw sh d]. unfold toggleAbout, set_about_style_display.
  cbn [about_style_display clientWidth clientHeight ctx
       canvas_style_width canvas_style_height].
  destruct (d =? "none") eqn:E.
  - apply String.eqb_eq in E. subst d. cbn. repeat split; auto.
  - cbn. repeat split; auto.
    + intros H. injection H as <-. auto.
    + intros [-> | ->]; [reflexivity|]. cbn in E. discriminate.
Qed.

(** ** Resizing *)



